(** * Browser resolution and pagination polling of the PDF skill

    A shallow embedding of [skills/pdf/scripts/browser_helper.js] (the
    Chromium resolver) and of the driver [convertHTMLToPDF] of
    [skills/kimi-pdf/scripts/html_to_pdf.js], with the properties the
    specification states about them.  The driver loads the resolver as
    [./browser_helper]; the resolver embedded here is the one the
    repository keeps under [skills/pdf/scripts].

    Conventions of the embedding.
    - JavaScript numbers that hold revisions, scores and page counts are
      integers; they are modelled as [Z].  The embedding is exact as long as
      the values stay inside the safe-integer range of a double.
    - JavaScript strings are modelled as [string]; [null]/[undefined] as
      [None].  A value is "truthy" when it is present and not the empty
      string (strings) or not zero (numbers).
    - Everything the scripts read from their surroundings (environment
      variables, platform, file system, output of external commands, the
      Playwright module) is gathered in a record [World].  Reads are pure
      functions of the world; the only operation that changes it is the
      external installer.
    - [process.exit] ends a run: a run of the driver yields the list of
      events it performed and how it ended. *)

From Stdlib Require Import ZArith String Ascii List Lia Bool DecimalString.
From stdpp Require Import base gmap strings list sorting.

Open Scope Z_scope.

(** ** String primitives of the JavaScript runtime used by the scripts *)
Module Js.

(** ASCII case folding, as the [i] flag of a regular expression performs
    it on the letters of the patterns used here. *)
Definition lower (c : ascii) : ascii :=
  let n := N_of_ascii c in
  if ((65 <=? n) && (n <=? 90))%N then ascii_of_N (n + 32) else c.

Definition is_digit (c : ascii) : bool :=
  let n := N_of_ascii c in ((48 <=? n) && (n <=? 57))%N.

(** White space removed by [String.prototype.trim], restricted to the
    ASCII range: tab, line feed, vertical tab, form feed, carriage
    return and space. *)
Definition is_space (c : ascii) : bool :=
  let n := N_of_ascii c in (((9 <=? n) && (n <=? 13)) || (n =? 32))%N.

(** [match_ci pat s] matches the literal [pat] at the start of [s],
    ignoring ASCII case, and returns the rest of [s]. *)
Fixpoint match_ci (pat s : string) : option string :=
  match pat, s with
  | EmptyString, _ => Some s
  | String _ _, EmptyString => None
  | String p pat', String c s' =>
      if Ascii.eqb (lower p) (lower c) then match_ci pat' s' else None
  end.

(** The longest prefix of digits ([\d+] is greedy) and what follows it. *)
Fixpoint span_digits (s : string) : string * string :=
  match s with
  | EmptyString => (EmptyString, EmptyString)
  | String c s' =>
      if is_digit c
      then let '(ds, rest) := span_digits s' in (String c ds, rest)
      else (EmptyString, s)
  end.

(** [parseInt(ds, 10)] on a string of decimal digits. *)
Definition parseInt_digits (ds : string) : Z :=
  fold_left (fun acc c => 10 * acc + (Z.of_N (N_of_ascii c) - 48))
            (list_ascii_of_string ds) 0.

(** [s.includes] for one of several literals, ignoring case: the test
    [/(a|b)/i.test(s)]. *)
Fixpoint test_any_ci (pats : list string) (s : string) : bool :=
  existsb (fun p => bool_decide (is_Some (match_ci p s))) pats
  || match s with
     | EmptyString => false
     | String _ s' => test_any_ci pats s'
     end.

(** [s.split(d)] for a one-character separator [d]. *)
Fixpoint split (d : ascii) (s : string) : list string :=
  match s with
  | EmptyString => [EmptyString]
  | String c s' =>
      if Ascii.eqb c d then EmptyString :: split d s'
      else match split d s' with
           | h :: t => String c h :: t
           | [] => [String c EmptyString]
           end
  end.

(** [s.split(/\r?\n/)]. *)
Fixpoint split_lines (s : string) : list string :=
  match s with
  | EmptyString => [EmptyString]
  | String c s' =>
      let rest := split_lines s' in
      if Ascii.eqb c (ascii_of_N 10) then EmptyString :: rest
      else if Ascii.eqb c (ascii_of_N 13)
              && match s' with
                 | String c' _ => Ascii.eqb c' (ascii_of_N 10)
                 | EmptyString => false
                 end
      then rest
      else match rest with
           | h :: t => String c h :: t
           | [] => [String c EmptyString]
           end
  end.

Fixpoint trim_start (s : string) : string :=
  match s with
  | EmptyString => EmptyString
  | String c s' => if is_space c then trim_start s' else s
  end.

Fixpoint trim_end (s : string) : string :=
  match s with
  | EmptyString => EmptyString
  | String c s' =>
      match trim_end s' with
      | EmptyString => if is_space c then EmptyString else String c EmptyString
      | r => String c r
      end
  end.

(** [s.trim()]. *)
Definition trim (s : string) : string := trim_end (trim_start s).

(** Truthiness of a string value that may be [null] or [undefined]. *)
Definition truthy (v : option string) : bool :=
  match v with
  | Some s => negb (String.eqb s EmptyString)
  | None => false
  end.

(** [Number.MAX_SAFE_INTEGER]. *)
Definition MAX_SAFE_INTEGER : Z := 9007199254740991.

End Js.

(** ** The Chromium resolver: [browser_helper.js] *)
Module BrowserHelper.
Import Js.

(** *** The surroundings of the script *)

(** What the file system answers for one path: [fs.statSync(p).isDirectory()],
    whether [fs.accessSync(p, fs.constants.X_OK)] succeeds, and the result
    of [fs.readdirSync(p, { withFileTypes: true })]: the entry names with
    their [isDirectory()] flag, or [None] when the call throws. *)
Record Node := {
  isDirectory : bool;
  executable : bool;
  listing : option (list (string * bool))
}.

(** The [chromium] object of Playwright: [executablePath()] returns a path
    or throws ([None]). *)
Record Chromium := { chromium_executablePath : option string }.

(** The Playwright module; its [chromium] property may be undefined. *)
Record Playwright := { chromium : option Chromium }.

Record World := {
  env : gmap string string;                 (* process.env *)
  platform : string;                        (* process.platform *)
  homedir : string;                         (* os.homedir() *)
  files : gmap string Node;                 (* the file system, by path *)
  execSync : string → option string;        (* stdout of a command, None when it throws *)
  path_join : list string → string;         (* path.join *)
  path_resolve : string → string;           (* path.resolve *)
  require_playwright : option string → option Playwright;
    (* require('playwright'), plainly ([None]) or through
       Module.createRequire(pkgPath) ([Some pkgPath]); None when it throws *)
  install_status : option Z;                (* exit status of the installer *)
  install_files : gmap string Node          (* the file system it leaves behind *)
}.

Definition process_env (w : World) (name : string) : option string :=
  env w !! name.

(** The empty path names no file (ENOENT). *)
Definition node_at (w : World) (p : string) : option Node :=
  if String.eqb p EmptyString then None else files w !! p.

Definition existsSync (w : World) (p : string) : bool :=
  bool_decide (is_Some (node_at w p)).

(** [fs.accessSync(p, fs.constants.X_OK)]: [true] when it returns,
    [false] when it throws. *)
Definition accessSync_X_OK (w : World) (p : string) : bool :=
  match node_at w p with
  | Some n => executable n
  | None => false
  end.

Definition statSync (w : World) (p : string) : option Node := node_at w p.

Definition readdirSync (w : World) (p : string) : option (list (string * bool)) :=
  n ← node_at w p; listing n.

(** [path.delimiter]. *)
Definition path_delimiter (w : World) : ascii :=
  if String.eqb (platform w) "win32" then ";"%char else ":"%char.

(** [spawnSync('npx', ['playwright', 'install', 'chromium'], ...)]: the
    exit status, and the world the installer leaves behind. *)
Definition spawnSync_install (w : World) : option Z * World :=
  (install_status w,
   {| env := env w; platform := platform w; homedir := homedir w;
      files := install_files w; execSync := execSync w;
      path_join := path_join w; path_resolve := path_resolve w;
      require_playwright := require_playwright w;
      install_status := install_status w;
      install_files := install_files w |}).

(** A JavaScript [Set] iterated in insertion order. *)
Definition set_add (x : string) (s : list string) : list string :=
  if decide (x ∈ s) then s else s ++ [x].

(** *** loadPlaywright *)

Definition loadPlaywright (w : World) : option Playwright :=
  match require_playwright w None with
  | Some m => Some m
  | None =>
      let roots0 : list string :=
        match process_env w "PLAYWRIGHT_PATH" with
        | Some p => if truthy (Some p) then [p] else []
        | None => []
        end in
      let roots1 :=
        match process_env w "NODE_PATH" with
        | Some np =>
            if truthy (Some np)
            then fold_left (fun s e => set_add e s)
                   (filter (fun e => truthy (Some e) = true) (split (path_delimiter w) np))
                   roots0
            else roots0
        | None => roots0
        end in
      let roots2 :=
        match execSync w "npm root -g" with
        | Some out => let npmRoot := trim out in
                      if truthy (Some npmRoot) then set_add npmRoot roots1 else roots1
        | None => roots1
        end in
      (fix search (bases : list string) : option Playwright :=
         match bases with
         | [] => None
         | base :: rest =>
             if negb (truthy (Some base)) then search rest
             else
               let pkgPath := path_join w [base; "playwright"; "package.json"] in
               if negb (existsSync w pkgPath) then search rest
               else match require_playwright w (Some pkgPath) with
                    | Some m => Some m
                    | None => search rest
                    end
         end) roots2
  end.

(** *** getDefaultChromiumPath, extractRevisionFromPath *)

Definition getDefaultChromiumPath (chromiumInstance : option Chromium) : option string :=
  match chromiumInstance with
  | None => None
  | Some c => chromium_executablePath c
  end.

(** One attempt of [/(?:chromium|chrome|chromium_headless_shell)-(\d+)/i]
    at the start of [s]: the alternatives in order, each followed by a
    dash and at least one digit; the digits of the first that succeeds. *)
Definition match_revision_here (s : string) : option string :=
  (fix alternatives (names : list string) : option string :=
     match names with
     | [] => None
     | name :: more =>
         match match_ci name s with
         | Some (String "-"%char rest) =>
             match span_digits rest with
             | (EmptyString, _) => alternatives more
             | (ds, _) => Some ds
             end
         | _ => alternatives more
         end
     end) ["chromium"; "chrome"; "chromium_headless_shell"]%string.

(** The leftmost match of the expression in [s]. *)
Fixpoint match_revision (s : string) : option string :=
  match match_revision_here s with
  | Some ds => Some ds
  | None => match s with
            | EmptyString => None
            | String _ s' => match_revision s'
            end
  end.

Definition extractRevisionFromPath (input : option string) : option Z :=
  if negb (truthy input) then None
  else match input with
       | Some s => parseInt_digits <$> match_revision s
       | None => None
       end.

(** *** getBrowserCacheDirectories *)

(** The two sets the function fills: [dirs] and [seenHomes]. *)
Record DirState := { dirs : list string; seenHomes : gset string }.

Definition dirs_add (d : string) (st : DirState) : DirState :=
  {| dirs := set_add d (dirs st); seenHomes := seenHomes st |}.

Definition addHomeDir (w : World) (st : DirState) (homeDir : string) : DirState :=
  if negb (truthy (Some homeDir)) then st
  else
    let normalized := path_resolve w homeDir in
    if decide (normalized ∈ seenHomes st) then st
    else
      let cache :=
        if String.eqb (platform w) "darwin"
        then path_join w [normalized; "Library"; "Caches"; "ms-playwright"]
        else if String.eqb (platform w) "win32"
        then path_join w [normalized; "AppData"; "Local"; "ms-playwright"]
        else path_join w [normalized; ".cache"; "ms-playwright"] in
      {| dirs := set_add cache (dirs st);
         seenHomes := {[normalized]} ∪ seenHomes st |}.

(** [value.split(path.delimiter).filter(Boolean).forEach(e => dirs.add(e))]
    when the variable is set and not empty. *)
Definition add_path_list (w : World) (name : string) (st : DirState) : DirState :=
  match process_env w name with
  | Some v =>
      if truthy (Some v)
      then fold_left (fun s e => dirs_add e s)
             (filter (fun e => truthy (Some e) = true) (split (path_delimiter w) v)) st
      else st
  | None => st
  end.

Definition sandbox_users : list string :=
  ["kimi"; "ubuntu"; "sandbox"; "user"; "app"]%string.

Definition getBrowserCacheDirectories (w : World) : list string :=
  let st := add_path_list w "PLAYWRIGHT_BROWSERS_PATH"
              {| dirs := []; seenHomes := ∅ |} in
  let st := addHomeDir w st (homedir w) in
  let st := match process_env w "HOME" with
            | Some h => if truthy (Some h) then addHomeDir w st h else st
            | None => st
            end in
  let st :=
    if negb (String.eqb (platform w) "win32") then
      let st := addHomeDir w st "/root" in
      let st := match process_env w "SUDO_USER" with
                | Some u => if truthy (Some u)
                            then addHomeDir w st (path_join w ["/home"; u]) else st
                | None => st
                end in
      let st := match process_env w "USER" with
                | Some u =>
                    if truthy (Some u)
                       && negb (bool_decide (Some u = process_env w "SUDO_USER"))
                    then addHomeDir w st (path_join w ["/home"; u]) else st
                | None => st
                end in
      fold_left (fun s user => dirs_add ("/home/" +:+ user +:+ "/.cache/ms-playwright") s)
                sandbox_users st
    else st in
  let multiUserBases : list string :=
    if String.eqb (platform w) "darwin" then ["/Users"%string]
    else if negb (String.eqb (platform w) "win32") then ["/home"%string]
    else [] in
  let st :=
    fold_left
      (fun s baseDir =>
         match readdirSync w baseDir with
         | Some entries =>
             fold_left
               (fun s' (entry : string * bool) =>
                  if negb (snd entry) then s'
                  else addHomeDir w s' (path_join w [baseDir; fst entry]))
               entries s
         | None => s
         end)
      multiUserBases st in
  let st := add_path_list w "PDF_EXTRA_BROWSER_PATHS" st in
  dirs st.

(** *** getExecutableCandidates, collectCacheExecutables *)

Definition getExecutableCandidates (w : World) (baseDir : string) : list string :=
  let relative : list (list string) :=
    if String.eqb (platform w) "darwin" then
      [ ["chrome-mac"; "Chromium.app"; "Contents"; "MacOS"; "Chromium"];
        ["Chromium.app"; "Contents"; "MacOS"; "Chromium"] ]%string
    else if String.eqb (platform w) "linux" then
      [ ["chrome-linux"; "chrome"];
        ["chrome-linux"; "headless_shell"];
        ["chrome-linux"; "chromium"];
        ["chrome-linux64"; "chrome"];
        ["chrome-linux64"; "chromium"];
        ["chrome-linux64"; "headless_shell"];
        ["chrome-linux64"; "chrome-headless-shell"] ]%string
    else if String.eqb (platform w) "win32" then
      [ ["chrome-win"; "chrome.exe"];
        ["chrome-win"; "msedge.exe"] ]%string
    else [] in
  filter (fun target => existsSync w target = true)
         (map (fun relativeParts => path_join w (baseDir :: relativeParts)) relative).

(** An entry of a cache directory: the executable and the revision read
    from the name of the directory that holds it. *)
Record CacheEntry := { entry_path : string; entry_revision : option Z }.

Definition collectCacheExecutables (w : World) (cacheDir : string) : list CacheEntry :=
  if negb (truthy (Some cacheDir)) then []
  else
    match readdirSync w cacheDir with
    | None => []
    | Some entries =>
        flat_map
          (fun entry : string =>
             let fullPath := path_join w [cacheDir; entry] in
             match statSync w fullPath with
             | None => []
             | Some stats =>
                 if negb (isDirectory stats) then []
                 else if negb (test_any_ci ["chromium"; "chrome"]%string entry) then []
                 else
                   let revision := extractRevisionFromPath (Some entry) in
                   map (fun candidate =>
                          {| entry_path := candidate; entry_revision := revision |})
                       (getExecutableCandidates w fullPath)
             end)
          (map fst entries)
    end.

(** *** resolveSystemCommand, collectSystemBrowsers *)

Definition resolveSystemCommand (w : World) (cmd : string) : option string :=
  if String.eqb (platform w) "win32" then
    match execSync w ("where " +:+ cmd) with
    | Some out =>
        match filter (fun line => truthy (Some line) = true)
                     (map trim (split_lines out)) with
        | line :: _ => Some line
        | [] => None
        end
    | None => None
    end
  else
    trim <$> execSync w ("command -v " +:+ cmd).

Definition directPaths : list string :=
  [ "/usr/bin/chromium";
    "/usr/bin/chromium-browser";
    "/usr/lib/chromium/chromium";
    "/snap/bin/chromium";
    "/usr/bin/google-chrome";
    "/usr/bin/google-chrome-stable" ]%string.

Definition commands : list string :=
  [ "chromium-browser"; "chromium"; "google-chrome"; "google-chrome-stable";
    "chrome"; "microsoft-edge"; "msedge" ]%string.

Definition collectSystemBrowsers (w : World) : list string :=
  (if String.eqb (platform w) "linux"
   then filter (fun p => accessSync_X_OK w p = true) directPaths
   else [])
  ++ flat_map (fun cmd =>
                 match resolveSystemCommand w cmd with
                 | Some resolved => if truthy (Some resolved) then [resolved] else []
                 | None => []
                 end) commands.

(** *** findExistingChromium *)

Record Candidate := { path : string; revision : option Z; source : string }.

(** The state [addCandidate] closes over: the set [seen] and the array
    [candidates]. *)
Record Found := { seen : gset string; candidates : list Candidate }.

Definition addCandidate (w : World) (st : Found)
    (candidatePath : string) (revision : option Z) (source : string) : Found :=
  if negb (truthy (Some candidatePath)) || bool_decide (candidatePath ∈ seen st)
  then st
  else if negb (accessSync_X_OK w candidatePath) then st
  else {| seen := {[candidatePath]} ∪ seen st;
          candidates := candidates st ++
            [{| path := candidatePath; revision := revision; source := source |}] |}.

Definition env_overrides : list string :=
  ["PLAYWRIGHT_CHROMIUM_PATH"; "CHROMIUM_PATH"; "BROWSER_PATH"]%string.

Definition add_env_candidates (w : World) (st : Found) : Found :=
  fold_left (fun s envName =>
               match process_env w envName with
               | Some v => if truthy (Some v) then addCandidate w s v None "env" else s
               | None => s
               end) env_overrides st.

Definition add_cache_candidates (w : World) (st : Found) : Found :=
  fold_left (fun s dir =>
               fold_left (fun s' entry =>
                            addCandidate w s' (entry_path entry) (entry_revision entry) "cache")
                         (collectCacheExecutables w dir) s)
            (getBrowserCacheDirectories w) st.

Definition add_system_candidates (w : World) (st : Found) : Found :=
  fold_left (fun s cmdPath => addCandidate w s cmdPath None "system")
            (collectSystemBrowsers w) st.

(** The array [candidates] when the three sources have been visited. *)
Definition collectCandidates (w : World) : list Candidate :=
  candidates
    (add_system_candidates w
       (add_cache_candidates w
          (add_env_candidates w {| seen := ∅; candidates := [] |}))).

Definition score (expectedRevision : option Z) (candidate : Candidate) : Z :=
  match expectedRevision, revision candidate with
  | Some e, Some r => Z.abs (r - e)
  | None, Some r => 100000 - r
  | _, None => MAX_SAFE_INTEGER
  end.

(** [revision || 0]. *)
Definition revision_or_0 (c : Candidate) : Z :=
  match revision c with
  | Some r => r
  | None => 0
  end.

(** The comparison function handed to [candidates.sort]. *)
Definition compare (expectedRevision : option Z) (a b : Candidate) : Z :=
  let diff := score expectedRevision a - score expectedRevision b in
  if negb (diff =? 0) then diff
  else revision_or_0 b - revision_or_0 a.

(** [Array.prototype.sort] is stable, and for a comparison function that
    is consistent (as [compare] is, being the difference of keys) its
    result is determined: the elements in ascending order, equal ones in
    their original order.  Insertion from the right computes it. *)
Fixpoint sort_insert {A} (cmp : A → A → Z) (x : A) (l : list A) : list A :=
  match l with
  | [] => [x]
  | y :: l' => if cmp x y <=? 0 then x :: l else y :: sort_insert cmp x l'
  end.

Fixpoint array_sort {A} (cmp : A → A → Z) (l : list A) : list A :=
  match l with
  | [] => []
  | x :: l' => sort_insert cmp x (array_sort cmp l')
  end.

(** The array [candidates] after [candidates.sort(...)]. *)
Definition sortedCandidates (w : World) (expectedRevision : option Z) : list Candidate :=
  array_sort (compare expectedRevision) (collectCandidates w).

Definition findExistingChromium (w : World) (expectedRevision : option Z)
    : option Candidate :=
  if (Z.of_nat (length (collectCandidates w)) =? 0) then None
  else head (sortedCandidates w expectedRevision).

(** *** resolveChromium *)

Inductive Status := ok | fallback | installed | missing.

Record Resolution := {
  status : Status;
  executablePath : string;
  resolved_revision : option Z;      (* the field [revision] *)
  expectedRevision : option Z;
  isFallback : bool;
  resolved_source : string           (* the field [source] *)
}.

(** The errors [resolveChromium] throws: the one of [loadPlaywright], and
    the one with code [INSTALL_FAILED]. *)
Inductive Error := PLAYWRIGHT_NOT_FOUND | INSTALL_FAILED.

(** The calls [resolveChromium] makes outside itself, in order. *)
Inductive Call :=
| CallExistsSync (p : string)
| CallFindExistingChromium (expected : option Z)
| CallSpawnInstaller.

(** The argument [options]: [chromium] may be left out ([None]), in which
    case the default [loadPlaywright().chromium] is evaluated. *)
Record Options := {
  opt_chromium : option (option Chromium);
  allowInstall : bool
}.

(** The outcome of a call: what is returned or thrown, the world when the
    call ends, and the calls made. *)
Record Outcome := {
  result : Error + Resolution;
  world_after : World;
  calls : list Call
}.

(** [fallback.revision || null]. *)
Definition revision_or_null (r : option Z) : option Z :=
  match r with
  | Some 0 => None
  | _ => r
  end.

(** [expectedPath && fs.existsSync(expectedPath)], with the call it makes. *)
Definition check_path (w : World) (p : option string) : bool * list Call :=
  match p with
  | Some s => if truthy p then (existsSync w s, [CallExistsSync s]) else (false, [])
  | None => (false, [])
  end.

Definition resolveChromium_with (w : World) (chromium : option Chromium)
    (allowInstall : bool) : Outcome :=
  let expectedPath := getDefaultChromiumPath chromium in
  let expectedRevision := extractRevisionFromPath expectedPath in
  let '(present, log1) := check_path w expectedPath in
  if present then
    {| result := inr {| status := ok;
                        executablePath := default EmptyString expectedPath;
                        resolved_revision := extractRevisionFromPath expectedPath;
                        expectedRevision := expectedRevision;
                        isFallback := false;
                        resolved_source := "default" |};
       world_after := w;
       calls := log1 |}
  else
    let log2 := log1 ++ [CallFindExistingChromium expectedRevision] in
    match findExistingChromium w expectedRevision with
    | Some found =>
        {| result := inr {| status := fallback;
                            executablePath := path found;
                            resolved_revision := revision_or_null (revision found);
                            expectedRevision := expectedRevision;
                            isFallback := true;
                            resolved_source := source found |};
           world_after := w;
           calls := log2 |}
    | None =>
        if negb allowInstall then
          {| result := inr {| status := missing;
                              executablePath :=
                                if truthy expectedPath
                                then default EmptyString expectedPath
                                else EmptyString;
                              resolved_revision := None;
                              expectedRevision := expectedRevision;
                              isFallback := false;
                              resolved_source := "missing" |};
             world_after := w;
             calls := log2 |}
        else
          let '(installStatus, w') := spawnSync_install w in
          let log3 := log2 ++ [CallSpawnInstaller] in
          let failed log :=
            {| result := inl INSTALL_FAILED; world_after := w'; calls := log |} in
          if bool_decide (installStatus = Some 0) then
            let installedPath := getDefaultChromiumPath chromium in
            let '(present', log4) := check_path w' installedPath in
            if present' then
              {| result := inr {| status := installed;
                                  executablePath := default EmptyString installedPath;
                                  resolved_revision := extractRevisionFromPath installedPath;
                                  expectedRevision := extractRevisionFromPath installedPath;
                                  isFallback := false;
                                  resolved_source := "install" |};
                 world_after := w';
                 calls := log3 ++ log4 |}
            else failed (log3 ++ log4)
          else failed log3
    end.

(** The destructuring [{ chromium = loadPlaywright().chromium, ... } =
    options]: the value [chromium] is bound to, or [None] when the
    default is evaluated and [loadPlaywright] throws. *)
Definition chromium_of (w : World) (options : Options) : option (option Chromium) :=
  match opt_chromium options with
  | Some chromium => Some chromium
  | None => BrowserHelper.chromium <$> loadPlaywright w
  end.

Definition resolveChromium (w : World) (options : Options) : Outcome :=
  match chromium_of w options with
  | Some chromium => resolveChromium_with w chromium (allowInstall options)
  | None => {| result := inl PLAYWRIGHT_NOT_FOUND; world_after := w; calls := [] |}
  end.

(** *** The command line of the helper *)

(** The texts of the status, and of the messages of the two errors. *)
Definition status_name (s : Status) : string :=
  match s with
  | ok => "ok"
  | fallback => "fallback"
  | installed => "installed"
  | missing => "missing"
  end.

Definition error_message (e : Error) : string :=
  match e with
  | PLAYWRIGHT_NOT_FOUND => "Playwright module not found. Install it or set PLAYWRIGHT_PATH."
  | INSTALL_FAILED => "Failed to install Chromium via Playwright"
  end.

(** What the helper prints: a line on standard output, the result as JSON
    on standard output, or an error object as JSON on standard error. *)
Inductive Printed :=
| Stdout (line : string)
| StdoutJson (info : Resolution)
| StderrJson (message : string).

Record CliRun := { printed : list Printed; exit_code : Z; cli_calls : list Call }.

(** The block run when the file is the main module; [args] is
    [process.argv.slice(2)]. *)
Definition cli_main (w : World) (args : list string) : CliRun :=
  let allowInstall := bool_decide ("--allow-install"%string ∈ args) in
  let jsonOutput := bool_decide ("--json"%string ∈ args) in
  let outcome := resolveChromium w {| opt_chromium := None; allowInstall := allowInstall |} in
  match result outcome with
  | inr info =>
      {| printed :=
           [ if jsonOutput then StdoutJson info
             else Stdout (status_name (status info) +:+ ":" +:+ executablePath info) ];
         exit_code := match status info with missing => 2 | _ => 0 end;
         cli_calls := calls outcome |}
  | inl error =>
      {| printed :=
           [ if jsonOutput then StderrJson (error_message error)
             else Stdout ("error:" +:+ error_message error) ];
         exit_code := 3;
         cli_calls := calls outcome |}
  end.

End BrowserHelper.

(** ** The driver: [convertHTMLToPDF] of [html_to_pdf.js] *)
Module HtmlToPdf.
Import Js BrowserHelper.

(** *** The pagination polling loop *)

Definition maxWaitTime : Z := 120000.

(** One turn of the loop as the surroundings decide it: the value of
    [Date.now() - startTime] when the turn starts, and the page count
    [page.evaluate] returns after the delay ([None] when it throws). *)
Record Tick := { elapsed : Z; currentPageCount : option Z }.

(** The two variables of the loop. *)
Record PollState := { lastPageCount : Z; stableCount : Z }.

Definition poll_start : PollState := {| lastPageCount := 0; stableCount := 0 |}.

(** The body of the loop after the sample has been taken. *)
Definition check (st : PollState) (current : Z) : PollState :=
  if current =? lastPageCount st
  then {| lastPageCount := lastPageCount st; stableCount := stableCount st + 1 |}
  else {| lastPageCount := current; stableCount := 0 |}.

(** How the loop is left: the condition [stableCount < 3] fails, the
    time-out [break]s, [page.evaluate] throws, or the simulated samples
    are used up while the loop still waits. *)
Inductive PollExit := Stabilized | TimedOut | Threw | StillPolling.

(** [pollPagination ticks st n]: the loop run from state [st] after [n]
    samples; the result has the exit, the final state and the number of
    samples taken. *)
Fixpoint pollPagination (ticks : list Tick) (st : PollState) (n : nat)
    : PollExit * PollState * nat :=
  if negb (stableCount st <? 3) then (Stabilized, st, n)
  else
    match ticks with
    | [] => (StillPolling, st, n)
    | t :: rest =>
        if elapsed t >? maxWaitTime then (TimedOut, st, n)
        else match currentPageCount t with
             | None => (Threw, st, S n)
             | Some current => pollPagination rest (check st current) (S n)
             end
    end.

(** A simulated sequence of page counts, sampled once per second. *)
Definition simulate (counts : list Z) : list Tick :=
  imap (fun i c => {| elapsed := 1000 * Z.of_nat i; currentPageCount := Some c |}) counts.

(** *** The run of the driver *)

(** How the browser and the files behave during one run.  A [Some msg]
    is the message of the error the step throws. *)
Record Session := {
  readFileSync : string → option string;  (* contents, None when it throws *)
  launch : option string;        (* chromium.launch rejects *)
  render : option string;        (* a step from newPage up to the first page appearing throws *)
  ticks : list Tick;             (* the turns of the polling loop *)
  export : option string;        (* a step after the loop, up to the report, throws *)
  close : option string          (* browser.close rejects *)
}.

Inductive LaunchFailure := MissingLibraries | MissingExecutable | GenericFailure.

(** [s.includes(sub)]. *)
Fixpoint includes (s sub : string) : bool :=
  String.prefix sub s
  || match s with
     | EmptyString => false
     | String _ s' => includes s' sub
     end.

Definition classifyLaunchError (errorMsg : string) : LaunchFailure :=
  if includes errorMsg "shared libraries" || includes errorMsg ".so"
  then MissingLibraries
  else if includes errorMsg "ENOENT" || includes errorMsg "executable"
  then MissingExecutable
  else GenericFailure.

Inductive Event :=
| EvResolveChromium (allowInstall : bool)
| EvReadFile (p : string)
| EvLaunch (executablePath : option string)
| EvLaunchFailed (why : LaunchFailure)
| EvRender
| EvPoll (n : nat)
| EvExport
| EvConversionFailed
| EvClose
| EvExit (code : Z).

(** How a run ends: [process.exit(code)], the promise fulfilled or
    rejected, or the loop still polling when the simulated samples end. *)
Inductive Ending := Exited (code : Z) | Fulfilled | Rejected | Polling.

Record Run := { events : list Event; ending : Ending }.

Definition exit_with (evs : list Event) (code : Z) : Run :=
  {| events := evs ++ [EvExit code]; ending := Exited code |}.

(** The [try] body: the outcome and the events, without the handlers. *)
Inductive BodyEnd := BodyDone | BodyThrew | BodyPolling.

Definition conversion (s : Session) : list Event * BodyEnd :=
  match render s with
  | Some _ => ([EvRender], BodyThrew)
  | None =>
      let '(how, _, n) := pollPagination (ticks s) poll_start 0 in
      let evs := [EvRender; EvPoll n] in
      match how with
      | Threw => (evs, BodyThrew)
      | StillPolling => (evs, BodyPolling)
      | Stabilized | TimedOut =>
          match export s with
          | Some _ => (evs ++ [EvExport], BodyThrew)
          | None => (evs ++ [EvExport], BodyDone)
          end
      end
  end.

(** [try { ... } catch (error) { ...; process.exit(1); } finally
    { await browser.close(); }] around the conversion. *)
Definition guarded_conversion (s : Session) (before : list Event) : Run :=
  let '(evs, how) := conversion s in
  match how with
  | BodyThrew => exit_with (before ++ evs ++ [EvConversionFailed]) 1
  | BodyPolling => {| events := before ++ evs; ending := Polling |}
  | BodyDone =>
      {| events := before ++ evs ++ [EvClose];
         ending := match close s with Some _ => Rejected | None => Fulfilled end |}
  end.

(** [process.env.PDF_SKIP_BROWSER_INSTALL === '1' ? false : true]. *)
Definition allowInstall_from_env (w : World) : bool :=
  if bool_decide (process_env w "PDF_SKIP_BROWSER_INSTALL" = Some "1"%string)
  then false else true.

(** The argument [{ chromium, allowInstall }] handed to [resolveChromium];
    a [chromium] that is undefined leaves the property undefined. *)
Definition resolver_options (w : World) (chromium : option Chromium) : Options :=
  {| opt_chromium := (fun c => Some c) <$> chromium;
     allowInstall := allowInstall_from_env w |}.

(** [chromium] is the module-level constant bound by
    [const { chromium } = loadPlaywright()]. *)
Definition convertHTMLToPDF (w : World) (chromium : option Chromium) (s : Session)
    (inputFile outputFile : string) (customCSS : option string) : Run :=
  if negb (existsSync w inputFile) then exit_with [] 1
  else
    let allowInstall := allowInstall_from_env w in
    let resolution := resolveChromium w (resolver_options w chromium) in
    let w := world_after resolution in
    let evs := [EvResolveChromium allowInstall] in
    match result resolution with
    | inl _ => {| events := evs; ending := Rejected |}
    | inr browserInfo =>
        match status browserInfo with
        | missing => exit_with evs 2
        | _ =>
            let inputPath := path_resolve w inputFile in
            let evs := evs ++ [EvReadFile inputPath] in
            match readFileSync s inputPath with
            | None => {| events := evs; ending := Rejected |}
            | Some htmlContent =>
                let css_step : Run + list Event :=
                  match customCSS with
                  | Some css =>
                      if negb (truthy customCSS) then inr evs
                      else if negb (existsSync w css) then inl (exit_with evs 1)
                      else match readFileSync s css with
                           | None => inl {| events := evs ++ [EvReadFile css];
                                            ending := Rejected |}
                           | Some _ => inr (evs ++ [EvReadFile css])
                           end
                  | None => inr evs
                  end in
                match css_step with
                | inl run => run
                | inr evs =>
                    let launchPath :=
                      if isFallback browserInfo && truthy (Some (executablePath browserInfo))
                      then Some (executablePath browserInfo) else None in
                    let evs := evs ++ [EvLaunch launchPath] in
                    let launchError :=
                      match chromium with
                      | None => Some "Cannot read properties of undefined (reading 'launch')"%string
                      | Some _ => launch s
                      end in
                    match launchError with
                    | Some errorMsg =>
                        exit_with (evs ++ [EvLaunchFailed (classifyLaunchError errorMsg)]) 1
                    | None => guarded_conversion s evs
                    end
                end
            end
        end
    end.

(** *** parseArgs *)

(** The part of [path.parse] the script uses. *)
Record ParsedPath := { dir : string; name : string }.

(** The loop over [args[1..]]: a flag takes the next argument as its value
    ([args[++i]], undefined past the end); anything else is skipped. *)
Fixpoint scan_options (rest : list string) (outputFile customCSS : option string)
    : option string * option string :=
  match rest with
  | [] => (outputFile, customCSS)
  | arg :: rest' =>
      if String.eqb arg "--output" || String.eqb arg "-o" then
        match rest' with
        | value :: rest'' => scan_options rest'' (Some value) customCSS
        | [] => (None, customCSS)
        end
      else if String.eqb arg "--css" then
        match rest' with
        | value :: rest'' => scan_options rest'' outputFile (Some value)
        | [] => (outputFile, None)
        end
      else scan_options rest' outputFile customCSS
  end.

Record ParsedArgs := {
  arg_inputFile : string;
  arg_outputFile : string;
  arg_customCSS : option string
}.

(** [parseArgs] prints the usage and exits with code 0 ([None]), or
    returns the three arguments. *)
Definition parseArgs (w : World) (path_parse : string → ParsedPath) (args : list string)
    : option ParsedArgs :=
  match args with
  | [] => None
  | inputFile :: options =>
      if String.eqb inputFile "--help" || String.eqb inputFile "-h" then None
      else
        let '(outputFile, customCSS) := scan_options options None None in
        Some {| arg_inputFile := inputFile;
                arg_outputFile :=
                  if truthy outputFile then default EmptyString outputFile
                  else
                    let parsedPath := path_parse inputFile in
                    path_join w [ if truthy (Some (dir parsedPath)) then dir parsedPath
                                  else "."%string;
                                  name parsedPath +:+ ".pdf" ];
                arg_customCSS := customCSS |}
  end.

(** *** formatSize *)

Definition units : list string := ["B"; "KB"; "MB"; "GB"]%string.

(** The loop [while (size >= 1024 && unitIndex < units.length - 1)]: [size]
    is kept as the quotient [bytes / divisor], which the divisions by 1024
    leave exact; [later] are the units after the current one. *)
Fixpoint scale_size (bytes divisor : Z) (unit : string) (later : list string)
    : Z * string :=
  match later with
  | [] => (divisor, unit)
  | next :: later' =>
      if 1024 * divisor <=? bytes then scale_size bytes (1024 * divisor) next later'
      else (divisor, unit)
  end.

(** [x.toFixed(1)] for [x = bytes / divisor] not negative, in tenths: the
    integer [n] with [n / 10] nearest to [x], the larger one of two. *)
Definition toFixed1_tenths (bytes divisor : Z) : Z :=
  (20 * bytes + divisor) / (2 * divisor).

(** The number of tenths shown and the unit. *)
Definition formatSize_parts (bytes : Z) : Z * string :=
  let '(divisor, unit) := scale_size bytes 1 "B" ["KB"; "MB"; "GB"]%string in
  (toFixed1_tenths bytes divisor, unit).

(** The decimal digits of a number that is not negative. *)
Definition decimal (n : Z) : string :=
  NilZero.string_of_uint (N.to_uint (Z.to_N n)).

Definition formatSize (bytes : Z) : string :=
  let '(tenths, unit) := formatSize_parts bytes in
  decimal (tenths / 10) +:+ "." +:+ decimal (tenths mod 10) +:+ " " +:+ unit.

(** *** The entry point *)


End HtmlToPdf.

(** ** Concrete surroundings used to exercise the definitions *)
Module Scenario.
Import Js BrowserHelper HtmlToPdf.

Open Scope string_scope.

Definition directory (entries : list (string * bool)) : Node :=
  {| isDirectory := true; executable := true; listing := Some entries |}.

Definition program : Node :=
  {| isDirectory := false; executable := true; listing := None |}.

Definition document : Node :=
  {| isDirectory := false; executable := false; listing := None |}.

Definition cache : string := "/home/kimi/.cache/ms-playwright".

Definition chrome_of (revisionDir : string) : string :=
  cache +:+ "/" +:+ revisionDir +:+ "/chrome-linux/chrome".

(** A Linux machine; [fs] is its file system, [vars] its environment and
    [after_install] the file system the installer leaves behind. *)
Definition linux (vars : gmap string string) (fs after_install : gmap string Node)
    (installer : option Z) : World :=
  {| env := vars; platform := "linux"; homedir := "/home/kimi";
     files := fs;
     execSync := fun _ => None;
     path_join := String.concat "/";
     path_resolve := fun p => p;
     require_playwright := fun _ => None;
     install_status := installer;
     install_files := after_install |}.

(** A cache that holds the given revision directories, each with an
    executable [chrome-linux/chrome], next to a document and an
    executable outside the cache. *)
Definition cache_with (revisionDirs : list string) : gmap string Node :=
  list_to_map
    ([ (cache, directory (map (fun d => (d, true)) revisionDirs));
       ("/opt/chrome/chrome", program);
       ("/work/report.html", document);
       ("/work/notes.txt", document) ]
     ++ flat_map (fun d => [ (cache +:+ "/" +:+ d, directory [("chrome-linux", true)]);
                             (chrome_of d, program) ]) revisionDirs).

Definition playwright_at (revisionDir : string) : option Chromium :=
  Some {| chromium_executablePath := Some (chrome_of revisionDir) |}.

(** Playwright expects revision 1150; the cache holds 1148 and 1155 and
    the environment names a further executable. *)
Definition stale_cache : World :=
  linux {[ "PLAYWRIGHT_CHROMIUM_PATH" := "/opt/chrome/chrome" ]}
        (cache_with ["chromium-1148"; "chromium-1155"]) ∅ (Some 1).

(** The expected revision is installed. *)
Definition fresh_cache : World :=
  linux ∅ (cache_with ["chromium-1150"]) ∅ (Some 1).

(** Nothing is installed; the installer succeeds or fails. *)
Definition nothing_installed (installer : option Z) (after_install : gmap string Node)
    : World :=
  linux {[ "PDF_SKIP_BROWSER_INSTALL" := "0" ]}
        (list_to_map [("/work/report.html", document)]) after_install installer.

(** The cache holds revisions 1140 and 1160, at the same distance from
    the expected 1150. *)
Definition equidistant_cache : World :=
  linux ∅ (cache_with ["chromium-1140"; "chromium-1160"]) ∅ (Some 1).

(** The expected revision is [Number.MAX_SAFE_INTEGER], the cache holds
    revision 0 and the environment names an executable. *)
Definition far_cache : World :=
  linux {[ "PLAYWRIGHT_CHROMIUM_PATH" := "/opt/chrome/chrome" ]}
        (cache_with ["chromium-0"]) ∅ (Some 1).

Definition env_candidate : Candidate :=
  {| path := "/opt/chrome/chrome"; revision := None; source := "env" |}.

Definition cache_candidate (revisionDir : string) (r : Z) : Candidate :=
  {| path := chrome_of revisionDir; revision := Some r; source := "cache" |}.

(** A session in which every step succeeds and the page count is
    sampled as given. *)
Definition smooth (counts : list Z) : Session :=
  {| readFileSync := fun _ => Some "<html></html>";
     launch := None; render := None;
     ticks := simulate counts;
     export := None; close := None |}.

(** The same, but navigation fails after the browser was launched. *)
Definition failing_navigation : Session :=
  {| readFileSync := fun _ => Some "<html></html>";
     launch := None; render := Some "net::ERR_FILE_NOT_FOUND";
     ticks := []; export := None; close := None |}.

(** Playwright is not found by the plain [require] but is installed under
    the directory [PLAYWRIGHT_PATH] names; its browser is in the cache. *)
Definition relocated_playwright : World :=
  {| env := {[ "PLAYWRIGHT_PATH" := "/opt/pw" ]};
     platform := "linux"; homedir := "/home/kimi";
     files := <[ "/opt/pw/playwright/package.json" := document ]>
                (cache_with ["chromium-1150"]);
     execSync := fun _ => None;
     path_join := String.concat "/";
     path_resolve := fun p => p;
     require_playwright := fun q =>
       if bool_decide (q = Some "/opt/pw/playwright/package.json")
       then Some {| chromium := playwright_at "chromium-1150" |}
       else None;
     install_status := Some 1;
     install_files := ∅ |}.

End Scenario.

Import Js BrowserHelper HtmlToPdf.

(** * Vocabulary of the properties *)

(** [ordered_before cmp a b]: the comparison function [cmp] does not put
    [a] after [b]. *)
Definition ordered_before {A : Type} (cmp : A → A → Z) (a b : A) : Prop :=
  cmp a b ≤ 0.

(** The invariant of the state: the seen paths are those of the
    candidates, and every candidate satisfies [P]. *)
Definition found_invariant (P : Candidate → Prop) (st : Found) : Prop :=
  (∀ p, p ∈ seen st ↔ ∃ c, c ∈ candidates st ∧ path c = p) ∧
  Forall P (candidates st).

(** What the three sources hand to [addCandidate]: the environment and the
    system locations pass no revision, the caches pass the revision of the
    directory. *)
Definition handed (c : Candidate) : Prop :=
  (source c = "env"%string ∧ revision c = None) ∨
  source c = "cache"%string ∨
  (source c = "system"%string ∧ revision c = None).

(** A candidate whose path is not empty and passes the executable-access
    check, handed over by one of the three sources. *)
Definition usable (w : World) (c : Candidate) : Prop :=
  path c ≠ EmptyString ∧ accessSync_X_OK w (path c) = true ∧ handed c.

(** The installation succeeds when the installer exits with status 0 and
    the expected path [p] exists afterwards. *)
Definition installation_succeeds (w : World) (chromium : option Chromium) (p : string)
    : Prop :=
  install_status w = Some 0 ∧
  getDefaultChromiumPath chromium = Some p ∧
  existsSync (snd (spawnSync_install w)) p = true.

(** The counts the loop compares: the initial [lastPageCount], then the
    samples in the order they are taken. *)
Definition observed (ticks : list Tick) : list Z :=
  0 :: omap currentPageCount ticks.

(** [held obs i x]: the entries [i], [i+1], [i+2], [i+3] of [obs] are all
    [x]; the three checks that take the samples [i+1], [i+2], [i+3] each
    find the count recorded before unchanged. *)
Definition held (obs : list Z) (i : nat) (x : Z) : Prop :=
  obs !! i = Some x ∧ obs !! (i + 1)%nat = Some x ∧
  obs !! (i + 2)%nat = Some x ∧ obs !! (i + 3)%nat = Some x.

(** A turn of the loop that starts before the time-out and whose sample is
    taken. *)
Definition sampled_in_time (t : Tick) : Prop :=
  elapsed t ≤ maxWaitTime ∧ is_Some (currentPageCount t).

(** The string with its letters A-Z replaced by a-z. *)
Fixpoint lowercase (s : string) : string :=
  match s with
  | EmptyString => EmptyString
  | String c s' => String (lower c) (lowercase s')
  end.

(** A string made of decimal digits only. *)
Fixpoint all_digits (s : string) : bool :=
  match s with
  | EmptyString => true
  | String c s' => is_digit c && all_digits s'
  end.

(** A string that does not start with a decimal digit. *)
Definition no_leading_digit (s : string) : Prop :=
  match s with
  | EmptyString => True
  | String c _ => is_digit c = false
  end.

(** The names the revision is read after. *)
Definition browser_names : list string :=
  ["chromium"; "chrome"; "chromium_headless_shell"]%string.

(** The alternatives of the revision expression tried in order at the
    start of [s], for any list of names. *)
Fixpoint revision_alternatives (s : string) (names : list string) : option string :=
  match names with
  | [] => None
  | name :: more =>
      match match_ci name s with
      | Some (String "-"%char rest) =>
          match span_digits rest with
          | (EmptyString, _) => revision_alternatives s more
          | (ds, _) => Some ds
          end
      | _ => revision_alternatives s more
      end
  end.

(** The stages of [getBrowserCacheDirectories], in the order of the
    source: the user's home directories, the block for platforms other
    than Windows, and the enumeration of the homes of all users. *)
Definition cache_dirs_start : DirState := {| dirs := []; seenHomes := ∅ |}.

Definition stage_homes (w : World) (st : DirState) : DirState :=
  let st := addHomeDir w st (homedir w) in
  match process_env w "HOME" with
  | Some h => if truthy (Some h) then addHomeDir w st h else st
  | None => st
  end.

Definition stage_unix (w : World) (st : DirState) : DirState :=
  if negb (String.eqb (platform w) "win32") then
    let st := addHomeDir w st "/root" in
    let st := match process_env w "SUDO_USER" with
              | Some u => if truthy (Some u)
                          then addHomeDir w st (path_join w ["/home"; u]%string) else st
              | None => st
              end in
    let st := match process_env w "USER" with
              | Some u =>
                  if truthy (Some u)
                     && negb (bool_decide (Some u = process_env w "SUDO_USER"))
                  then addHomeDir w st (path_join w ["/home"; u]%string) else st
              | None => st
              end in
    fold_left (fun s user => dirs_add ("/home/" +:+ user +:+ "/.cache/ms-playwright") s)
              sandbox_users st
  else st.

Definition stage_users (w : World) (st : DirState) : DirState :=
  fold_left
    (fun s baseDir =>
       match readdirSync w baseDir with
       | Some entries =>
           fold_left
             (fun s' (entry : string * bool) =>
                if negb (snd entry) then s'
                else addHomeDir w s' (path_join w [baseDir; fst entry]))
             entries s
       | None => s
       end)
    (if String.eqb (platform w) "darwin" then ["/Users"%string]
     else if negb (String.eqb (platform w) "win32") then ["/home"%string]
     else [])
    st.

(** A property of the set [dirs] that every operation on it keeps. *)
Definition kept_by_dirs (P : list string → Prop) : Prop :=
  ∀ (l : list string) (d : string), P l → P (set_add d l).

(** The paths of the candidates recorded are the paths seen, and no two
    candidates have the same path. *)
Definition distinct_paths (st : Found) : Prop :=
  (∀ p, p ∈ seen st ↔ ∃ c, c ∈ candidates st ∧ path c = p) ∧
  NoDup (path <$> candidates st).

(** Where a candidate comes from, and what its revision can be: only a
    candidate from a cache carries one, and it is not negative. *)
Definition well_sourced (c : Candidate) : Prop :=
  (source c = "env"%string ∨ source c = "cache"%string ∨ source c = "system"%string) ∧
  ∀ r, revision c = Some r → source c = "cache"%string ∧ 0 ≤ r.

(** What a result says about the world, by status. *)
Definition resolution_holds (w : World) (o : Outcome) (allowed : bool) (r : Resolution)
    : Prop :=
  match status r with
  | ok =>
      existsSync w (executablePath r) = true ∧ world_after o = w ∧
      isFallback r = false ∧ resolved_source r = "default"%string
  | fallback =>
      accessSync_X_OK w (executablePath r) = true ∧ world_after o = w ∧
      isFallback r = true ∧
      (resolved_source r = "env"%string ∨ resolved_source r = "cache"%string ∨
       resolved_source r = "system"%string)
  | installed =>
      existsSync (world_after o) (executablePath r) = true ∧
      allowed = true ∧ collectCandidates w = [] ∧
      isFallback r = false ∧ resolved_source r = "install"%string
  | missing =>
      allowed = false ∧ collectCandidates w = [] ∧ world_after o = w ∧
      existsSync w (executablePath r) = false ∧
      isFallback r = false ∧ resolved_revision r = None
  end.

(** The search roots of [loadPlaywright] in the order they are tried:
    [PLAYWRIGHT_PATH], the entries of [NODE_PATH], the global root of npm. *)
Definition playwright_roots (w : World) : list string :=
  let roots0 : list string :=
    match process_env w "PLAYWRIGHT_PATH" with
    | Some p => if truthy (Some p) then [p] else []
    | None => []
    end in
  let roots1 :=
    match process_env w "NODE_PATH" with
    | Some np =>
        if truthy (Some np)
        then fold_left (fun s e => set_add e s)
               (filter (fun e => truthy (Some e) = true) (split (path_delimiter w) np))
               roots0
        else roots0
    | None => roots0
    end in
  match execSync w "npm root -g" with
  | Some out => let npmRoot := trim out in
                if truthy (Some npmRoot) then set_add npmRoot roots1 else roots1
  | None => roots1
  end.

(** The loop of [loadPlaywright] over the search roots. *)
Definition search_roots (w : World) : list string → option Playwright :=
  fix search (bases : list string) : option Playwright :=
    match bases with
    | [] => None
    | base :: rest =>
        if negb (truthy (Some base)) then search rest
        else
          let pkgPath := path_join w [base; "playwright"; "package.json"]%string in
          if negb (existsSync w pkgPath) then search rest
          else match require_playwright w (Some pkgPath) with
               | Some m => Some m
               | None => search rest
               end
    end.

(** The events of a run before the browser is launched: the call of the
    resolver and the reading of files. *)
Definition preparation (evs : list Event) : Prop :=
  Forall (fun e => (∃ allowed, e = EvResolveChromium allowed) ∨ (∃ p, e = EvReadFile p)) evs.

(** The executable handed to [chromium.launch]: the one of the resolution
    when it is a fallback, none otherwise. *)
Definition launch_path (browserInfo : Resolution) : option string :=
  if isFallback browserInfo && truthy (Some (executablePath browserInfo))
  then Some (executablePath browserInfo) else None.

(** The events of the conversion proper. *)
Definition conversion_event (e : Event) : Prop :=
  e = EvRender ∨ (∃ n, e = EvPoll n) ∨ e = EvExport.

(** The ways a run of [convertHTMLToPDF] can take, after the input was
    found and the resolver returned a browser. *)
Definition prepared_run (w : World) (chromium : option Chromium) (s : Session)
    (customCSS : option string) (browserInfo : Resolution) (run : Run) : Prop :=
  ∃ pre, preparation pre ∧
    (run = {| events := pre; ending := Rejected |} ∨
     (run = exit_with pre 1 ∧
      ∃ css, customCSS = Some css ∧ css ≠ EmptyString ∧ existsSync w css = false) ∨
     (∃ why, run = exit_with ((pre ++ [EvLaunch (launch_path browserInfo)])
                                ++ [EvLaunchFailed why]) 1) ∨
     (chromium ≠ None ∧ launch s = None ∧
      run = guarded_conversion s (pre ++ [EvLaunch (launch_path browserInfo)]))).

(** A well-formed tail of the command line: options with their values,
    and other arguments, which are not flags. *)
Inductive CliOption :=
| OutputTo (long : bool) (value : string)
| StyleWith (value : string)
| Positional (arg : string).

Definition render_option (o : CliOption) : list string :=
  match o with
  | OutputTo long value => [if long then "--output" else "-o"; value]%string
  | StyleWith value => ["--css"; value]%string
  | Positional arg => [arg]
  end.

Definition is_flag (arg : string) : bool :=
  String.eqb arg "--output" || String.eqb arg "-o" || String.eqb arg "--css".

Definition well_formed_option (o : CliOption) : Prop :=
  match o with
  | Positional arg => is_flag arg = false
  | _ => True
  end.

(** The value of the last output option, and of the last style option. *)
Definition last_output (previous : option string) (opts : list CliOption) : option string :=
  fold_left (fun acc o => match o with OutputTo _ v => Some v | _ => acc end) opts previous.

Definition last_style (previous : option string) (opts : list CliOption) : option string :=
  fold_left (fun acc o => match o with StyleWith v => Some v | _ => acc end) opts previous.

(** The output path derived from the input path. *)
Definition default_output (w : World) (path_parse : string → ParsedPath) (inputFile : string)
    : string :=
  path_join w [ if truthy (Some (dir (path_parse inputFile))) then dir (path_parse inputFile)
                else "."%string;
                name (path_parse inputFile) +:+ ".pdf" ].

(** * Properties *)

(** ** The ranking of candidates *)

Section ArraySort.
Context {A : Type} (cmp : A → A → Z).

Local Abbreviation before := (ordered_before cmp).

Hypothesis cmp_transitive : ∀ a b c, before a b → before b c → before a c.
Hypothesis cmp_total : ∀ a b, before a b ∨ before b a.

Lemma sort_insert_Permutation (x : A) (l : list A) :
  sort_insert cmp x l ≡ₚ x :: l.
Proof.
  induction l as [|y l IH]; simpl; [done|].
  destruct (cmp x y <=? 0); [done|].
  rewrite IH. apply Permutation_swap.
Qed.

Lemma array_sort_Permutation (l : list A) : array_sort cmp l ≡ₚ l.
Proof.
  induction l as [|x l IH]; simpl; [done|].
  by rewrite sort_insert_Permutation, IH.
Qed.

Lemma sort_insert_sorted (x : A) (l : list A) :
  StronglySorted before l → StronglySorted before (sort_insert cmp x l).
Proof.
  induction 1 as [|y l Hl IH Hy]; simpl.
  - repeat constructor.
  - destruct (Z.leb_spec (cmp x y) 0) as [Hle|Hgt].
    + constructor; [by constructor|].
      constructor; [done|].
      eapply Forall_impl; [exact Hy|]. intros z Hz. by eapply cmp_transitive.
    + constructor; [done|].
      rewrite sort_insert_Permutation. constructor; [|done].
      destruct (cmp_total y x) as [?|Hxy]; [done|]. unfold ordered_before in Hxy. lia.
Qed.

Lemma array_sort_sorted (l : list A) : StronglySorted before (array_sort cmp l).
Proof.
  induction l as [|x l IH]; simpl; [constructor|]. by apply sort_insert_sorted.
Qed.

(** The first element of the sorted array is an element of the array that
    the comparison function puts after no other. *)
Lemma array_sort_head (l : list A) (m : A) :
  head (array_sort cmp l) = Some m → m ∈ l ∧ ∀ c, c ∈ l → before m c.
Proof.
  intros Hhead.
  pose proof (array_sort_sorted l) as Hsorted.
  pose proof (array_sort_Permutation l) as Hperm.
  destruct (array_sort cmp l) as [|m' rest]; simplify_eq/=.
  split.
  - rewrite <- Hperm. left.
  - intros c Hc. rewrite <- Hperm in Hc.
    apply StronglySorted_inv in Hsorted as [_ Hall].
    apply elem_of_cons in Hc as [->|Hc].
    + destruct (cmp_total m m); done.
    + by eapply Forall_forall in Hall.
Qed.

Lemma array_sort_head_is_Some (l : list A) :
  l ≠ [] → is_Some (head (array_sort cmp l)).
Proof.
  intros Hne. pose proof (array_sort_Permutation l) as Hperm.
  destruct (array_sort cmp l); [|by eexists].
  apply Permutation_nil_l in Hperm. congruence.
Qed.

(** Two elements the comparison function orders strictly appear in that
    order in the sorted array. *)
Lemma array_sort_order (l : list A) (a b : A) :
  a ∈ l → b ∈ l → cmp b a > 0 →
  ∃ l1 l2 l3, array_sort cmp l = l1 ++ a :: l2 ++ b :: l3.
Proof.
  intros Ha Hb Hba.
  pose proof (array_sort_sorted l) as Hsorted.
  rewrite <- (array_sort_Permutation l) in Ha, Hb.
  apply list_elem_of_split in Hb as (l1 & l3 & Heq). rewrite Heq in *.
  apply elem_of_app in Ha as [Ha|Ha].
  - apply list_elem_of_split in Ha as (k1 & k2 & ->).
    exists k1, k2, l3. by rewrite <- app_assoc.
  - exfalso. apply StronglySorted_app_1_r in Hsorted.
    apply StronglySorted_inv in Hsorted as [_ Hall].
    apply elem_of_cons in Ha as [->|Ha].
    + destruct (cmp_total b b) as [Hbb|Hbb]; unfold ordered_before in Hbb; lia.
    + eapply Forall_forall in Hall; [|done]. unfold ordered_before in Hall. lia.
Qed.

End ArraySort.

(** *** The comparison function of [findExistingChromium] *)

Lemma compare_before (R : option Z) (a b : Candidate) :
  compare R a b ≤ 0 ↔
  score R a < score R b ∨ (score R a = score R b ∧ revision_or_0 b ≤ revision_or_0 a).
Proof.
  unfold compare. destruct (Z.eqb_spec (score R a - score R b) 0); simpl; lia.
Qed.

Lemma compare_after (R : option Z) (a b : Candidate) :
  compare R a b < 0 ↔
  score R a < score R b ∨ (score R a = score R b ∧ revision_or_0 b < revision_or_0 a).
Proof.
  unfold compare. destruct (Z.eqb_spec (score R a - score R b) 0); simpl; lia.
Qed.

Lemma compare_antisymmetric (R : option Z) (a b : Candidate) :
  compare R b a = - compare R a b.
Proof.
  unfold compare.
  destruct (Z.eqb_spec (score R a - score R b) 0),
           (Z.eqb_spec (score R b - score R a) 0); simpl; lia.
Qed.

Lemma compare_transitive (R : option Z) (a b c : Candidate) :
  ordered_before (compare R) a b → ordered_before (compare R) b c → ordered_before (compare R) a c.
Proof. unfold ordered_before. rewrite !compare_before. lia. Qed.

Lemma compare_total (R : option Z) (a b : Candidate) :
  ordered_before (compare R) a b ∨ ordered_before (compare R) b a.
Proof. unfold ordered_before. rewrite !compare_before. lia. Qed.

Lemma findExistingChromium_head (w : World) (R : option Z) :
  findExistingChromium w R = head (sortedCandidates w R).
Proof.
  unfold findExistingChromium, sortedCandidates.
  destruct (collectCandidates w); reflexivity.
Qed.

(** The candidate [findExistingChromium] returns is one of the collected
    candidates, and the comparison function puts it after no other. *)
Lemma findExistingChromium_least (w : World) (R : option Z) (sel : Candidate) :
  findExistingChromium w R = Some sel →
  sel ∈ collectCandidates w ∧ ∀ c, c ∈ collectCandidates w → compare R sel c ≤ 0.
Proof.
  rewrite findExistingChromium_head. unfold sortedCandidates. intros Hhead.
  eapply array_sort_head in Hhead;
    eauto using compare_transitive, compare_total.
Qed.

Lemma findExistingChromium_is_Some (w : World) (R : option Z) :
  collectCandidates w ≠ [] → is_Some (findExistingChromium w R).
Proof.
  intros Hne. rewrite findExistingChromium_head.
  by apply array_sort_head_is_Some.
Qed.

Lemma findExistingChromium_None (w : World) (R : option Z) :
  findExistingChromium w R = None ↔ collectCandidates w = [].
Proof.
  split.
  - intros Hnone. destruct (collectCandidates w) as [|c l] eqn:Hc; [done|].
    destruct (findExistingChromium_is_Some w R) as [sel Hsel]; [by rewrite Hc|].
    congruence.
  - intros Hnil. unfold findExistingChromium. by rewrite Hnil.
Qed.

(** A candidate that the comparison function puts strictly after a
    collected candidate is not the one returned. *)
Lemma findExistingChromium_not (w : World) (R : option Z) (better worse : Candidate) :
  better ∈ collectCandidates w → compare R better worse < 0 →
  findExistingChromium w R ≠ Some worse.
Proof.
  intros Hin Hlt Hsel. apply findExistingChromium_least in Hsel as [_ Hleast].
  specialize (Hleast _ Hin). rewrite compare_antisymmetric in Hleast. lia.
Qed.

(** Such a pair appears in that order in the sorted array. *)
Lemma sortedCandidates_order (w : World) (R : option Z) (a b : Candidate) :
  a ∈ collectCandidates w → b ∈ collectCandidates w → compare R a b < 0 →
  ∃ l1 l2 l3, sortedCandidates w R = l1 ++ a :: l2 ++ b :: l3.
Proof.
  intros Ha Hb Hlt. unfold sortedCandidates.
  apply array_sort_order; eauto using compare_transitive, compare_total.
  rewrite compare_antisymmetric. lia.
Qed.

(** ** The candidates [findExistingChromium] collects *)

Lemma fold_left_invariant {A B} (P : A → Prop) (f : A → B → A) (l : list B) (a : A) :
  P a → (∀ a x, x ∈ l → P a → P (f a x)) → P (fold_left f l a).
Proof.
  revert a. induction l as [|x l IH]; intros a Ha Hstep; simpl; [done|].
  apply IH.
  - apply Hstep; [left|done].
  - intros a' y Hy. apply Hstep. by right.
Qed.

(** A property established when [x] is visited and kept by every later
    step holds at the end of the iteration. *)
Lemma fold_left_reaches {A B} (Q : A → Prop) (f : A → B → A) (l : list B) (x : B) (a : A) :
  x ∈ l → (∀ a, Q (f a x)) → (∀ a y, Q a → Q (f a y)) → Q (fold_left f l a).
Proof.
  intros Hx Hat Hkeep. revert a.
  induction l as [|y l IH]; intros a; [by apply elem_of_nil in Hx|].
  simpl. apply elem_of_cons in Hx as [->|Hx]; [|by apply IH].
  apply fold_left_invariant; [apply Hat|]. intros a' z _. apply Hkeep.
Qed.

Section Candidates.
Context (w : World).

Lemma accessSync_existsSync (p : string) :
  accessSync_X_OK w p = true → existsSync w p = true.
Proof.
  unfold accessSync_X_OK, existsSync.
  destruct (node_at w p); [|done]. intros _. apply bool_decide_eq_true. by eexists.
Qed.

Lemma existsSync_nonempty (p : string) : existsSync w p = true → p ≠ EmptyString.
Proof.
  unfold existsSync, node_at. intros H ->. simpl in H. discriminate.
Qed.

(** [addCandidate] either leaves the state as it is, or records a path
    that is not empty, was not seen, and passed the access check. *)
Lemma addCandidate_cases (st : Found) (p : string) (r : option Z) (s : string) :
  addCandidate w st p r s = st ∨
  (p ≠ EmptyString ∧ (p ∉ seen st) ∧ accessSync_X_OK w p = true ∧
   addCandidate w st p r s =
     {| seen := {[p]} ∪ seen st;
        candidates := candidates st ++ [{| path := p; revision := r; source := s |}] |}).
Proof.
  unfold addCandidate, truthy.
  destruct (String.eqb_spec p EmptyString) as [->|Hne]; simpl; [by left|].
  case_bool_decide; simpl; [by left|].
  destruct (accessSync_X_OK w p) eqn:Hx; simpl; [|by left].
  right. done.
Qed.

(** When the path is usable, it is seen afterwards. *)
Lemma addCandidate_seen (st : Found) (p : string) (r : option Z) (s : string) :
  accessSync_X_OK w p = true → p ∈ seen (addCandidate w st p r s).
Proof.
  intros Hx. pose proof (accessSync_existsSync p Hx) as Hex.
  apply existsSync_nonempty in Hex.
  unfold addCandidate, truthy.
  destruct (String.eqb_spec p EmptyString); [done|]. simpl.
  case_bool_decide; simpl; [done|]. rewrite Hx. simpl. set_solver.
Qed.

Lemma addCandidate_seen_mono (st : Found) (p q : string) (r : option Z) (s : string) :
  q ∈ seen st → q ∈ seen (addCandidate w st p r s).
Proof.
  intros Hq. destruct (addCandidate_cases st p r s) as [->|(_ & _ & _ & ->)]; [done|].
  simpl. set_solver.
Qed.


Lemma found_invariant_start (P : Candidate → Prop) :
  found_invariant P {| seen := ∅; candidates := [] |}.
Proof.
  split; [|constructor]. intros p. simpl. split; [set_solver|].
  intros (c & Hc & _). by apply elem_of_nil in Hc.
Qed.

Lemma addCandidate_invariant (P : Candidate → Prop) (st : Found)
    (p : string) (r : option Z) (s : string) :
  (p ≠ EmptyString → accessSync_X_OK w p = true →
   P {| path := p; revision := r; source := s |}) →
  found_invariant P st → found_invariant P (addCandidate w st p r s).
Proof.
  intros Hnew [Hseen Hall].
  destruct (addCandidate_cases st p r s) as [->|(Hne & Hfresh & Hx & ->)]; [done|].
  split; simpl.
  - intros q. rewrite elem_of_union, elem_of_singleton, Hseen. split.
    + intros [->|(c & Hc & Hq)].
      * eexists. split; [apply elem_of_app; right; left|done].
      * exists c. split; [apply elem_of_app; by left|done].
    + intros (c & Hc & Hq). apply elem_of_app in Hc as [Hc|Hc].
      * right. by exists c.
      * apply list_elem_of_singleton in Hc as ->. by left.
  - apply Forall_app. split; [done|]. constructor; [by apply Hnew|constructor].
Qed.



Lemma add_env_candidates_invariant (st : Found) :
  found_invariant (usable w) st → found_invariant (usable w) (add_env_candidates w st).
Proof.
  intros Hst. unfold add_env_candidates.
  apply fold_left_invariant; [done|]. intros st' name _ Hst'.
  destruct (process_env w name) as [v|]; [|done].
  destruct (truthy (Some v)); [|done].
  apply addCandidate_invariant; [|done]. intros. repeat split; try done. by left.
Qed.

Lemma add_cache_candidates_invariant (st : Found) :
  found_invariant (usable w) st → found_invariant (usable w) (add_cache_candidates w st).
Proof.
  intros Hst. unfold add_cache_candidates.
  apply fold_left_invariant; [done|]. intros st' dir _ Hst'.
  apply fold_left_invariant; [done|]. intros st'' entry _ Hst''.
  apply addCandidate_invariant; [|done]. intros. repeat split; try done. right. by left.
Qed.

Lemma add_system_candidates_invariant (st : Found) :
  found_invariant (usable w) st → found_invariant (usable w) (add_system_candidates w st).
Proof.
  intros Hst. unfold add_system_candidates.
  apply fold_left_invariant; [done|]. intros st' cmdPath _ Hst'.
  apply addCandidate_invariant; [|done]. intros. repeat split; try done. right. by right.
Qed.

Lemma collectCandidates_usable : Forall (usable w) (collectCandidates w).
Proof.
  unfold collectCandidates.
  apply add_system_candidates_invariant, add_cache_candidates_invariant,
    add_env_candidates_invariant, found_invariant_start.
Qed.

Lemma add_system_candidates_seen_mono (st : Found) (q : string) :
  q ∈ seen st → q ∈ seen (add_system_candidates w st).
Proof.
  intros Hq. unfold add_system_candidates.
  apply (fold_left_invariant (fun s => q ∈ seen s)); [done|].
  intros. by apply addCandidate_seen_mono.
Qed.

(** An executable entry of a cache directory is among the candidates when
    the collection ends, by its path. *)
Lemma cache_entry_collected (dir : string) (entry : CacheEntry) :
  dir ∈ getBrowserCacheDirectories w →
  entry ∈ collectCacheExecutables w dir →
  accessSync_X_OK w (entry_path entry) = true →
  ∃ c, c ∈ collectCandidates w ∧ path c = entry_path entry.
Proof.
  intros Hdir Hentry Hx.
  set (st1 := add_env_candidates w {| seen := ∅; candidates := [] |}).
  assert (Hinv : found_invariant (usable w) (add_system_candidates w (add_cache_candidates w st1))).
  { apply add_system_candidates_invariant, add_cache_candidates_invariant,
      add_env_candidates_invariant, found_invariant_start. }
  destruct Hinv as [Hseen _]. apply Hseen.
  apply add_system_candidates_seen_mono.
  unfold add_cache_candidates.
  apply (fold_left_reaches (fun s => entry_path entry ∈ seen s) _ _ dir); [done| |].
  - intros st. apply (fold_left_reaches (fun s => entry_path entry ∈ seen s) _ _ entry); [done| |].
    + intros st'. by apply addCandidate_seen.
    + intros st' e. apply addCandidate_seen_mono.
  - intros st d Hst.
    apply (fold_left_invariant (fun s => entry_path entry ∈ seen s)); [done|].
    intros. by apply addCandidate_seen_mono.
Qed.

End Candidates.

(** [addCandidate] records nothing but paths that exist and are executable. *)
Lemma addCandidate_records_usable (w : World) (st : Found)
    (p : string) (r : option Z) (s : string) (c : Candidate) :
  c ∈ candidates (addCandidate w st p r s) →
  c ∈ candidates st ∨
  (c = {| path := p; revision := r; source := s |} ∧
   existsSync w p = true ∧ accessSync_X_OK w p = true).
Proof.
  destruct (addCandidate_cases w st p r s) as [->|(_ & _ & Hx & ->)]; [by left|].
  simpl. intros Hc. apply elem_of_app in Hc as [Hc|Hc]; [by left|].
  apply list_elem_of_singleton in Hc as ->. right.
  auto using accessSync_existsSync.
Qed.

(** C5.  Every candidate that [findExistingChromium] has recorded through
    [addCandidate], whatever its source, names a path that exists and that
    passed the executable-access check; a path that does not exist or is
    not executable is the path of no candidate. *)
Theorem candidates_exist_and_are_executable (w : World) (c : Candidate) :
  c ∈ collectCandidates w →
  existsSync w (path c) = true ∧ accessSync_X_OK w (path c) = true ∧
  ∀ p, existsSync w p = false ∨ accessSync_X_OK w p = false → path c ≠ p.
Proof.
  intros Hc.
  pose proof (collectCandidates_usable w) as Hall.
  eapply Forall_forall in Hall as (_ & Hx & _); [|exact Hc].
  pose proof (accessSync_existsSync w _ Hx) as Hex.
  repeat split; try done.
  intros p [Hp|Hp] <-; congruence.
Qed.

Lemma candidates_exist_and_are_executable_witness :
  existsSync Scenario.stale_cache (Scenario.chrome_of "chromium-1148") = true ∧
  accessSync_X_OK Scenario.stale_cache (Scenario.chrome_of "chromium-1148") = true ∧
  ∀ p, existsSync Scenario.stale_cache p = false ∨
       accessSync_X_OK Scenario.stale_cache p = false →
       Scenario.chrome_of "chromium-1148" ≠ p.
Proof.
  apply (candidates_exist_and_are_executable Scenario.stale_cache
           (Scenario.cache_candidate "chromium-1148" 1148)).
  apply list_elem_of_In. vm_compute. right. left. reflexivity.
Defined.

(** ** [resolveChromium] *)

Lemma check_path_present (w : World) (e : option string) (p : string) :
  e = Some p → existsSync w p = true → check_path w e = (true, [CallExistsSync p]).
Proof.
  intros -> Hex. unfold check_path, truthy.
  destruct (String.eqb_spec p EmptyString) as [->|_]; simpl.
  - by apply existsSync_nonempty in Hex.
  - by rewrite Hex.
Qed.

Lemma check_path_absent (w : World) (e : option string) :
  (∀ p, e = Some p → existsSync w p = false) →
  ∃ log, check_path w e = (false, log) ∧ CallSpawnInstaller ∉ log.
Proof.
  intros Habsent. unfold check_path. destruct e as [p|].
  - destruct (truthy (Some p)).
    + rewrite (Habsent p eq_refl). eexists. split; [done|].
      intros Hin%list_elem_of_singleton. discriminate.
    + eexists. split; [done|]. apply not_elem_of_nil.
  - eexists. split; [done|]. apply not_elem_of_nil.
Qed.

(** C2.  When the expected executable path exists and is executable,
    [resolveChromium] returns status [ok] with exactly that path; the only
    call it makes is the existence check of that path, so no fallback
    candidate is consulted and nothing is installed. *)
Theorem expected_path_resolves_ok (w : World) (options : Options)
    (chromium : option Chromium) (p : string) :
  chromium_of w options = Some chromium →
  getDefaultChromiumPath chromium = Some p →
  existsSync w p = true →
  accessSync_X_OK w p = true →
  resolveChromium w options =
    {| result := inr {| status := ok;
                        executablePath := p;
                        resolved_revision := extractRevisionFromPath (Some p);
                        expectedRevision := extractRevisionFromPath (Some p);
                        isFallback := false;
                        resolved_source := "default" |};
       world_after := w;
       calls := [CallExistsSync p] |}.
Proof.
  intros Hc Hp Hex _. unfold resolveChromium. rewrite Hc.
  unfold resolveChromium_with.
  rewrite (check_path_present w _ p Hp Hex). by rewrite Hp.
Qed.

Lemma expected_path_resolves_ok_witness :
  resolveChromium Scenario.fresh_cache
    {| opt_chromium := Some (Scenario.playwright_at "chromium-1150");
       allowInstall := false |} =
    {| result := inr {| status := ok;
                        executablePath := Scenario.chrome_of "chromium-1150";
                        resolved_revision :=
                          extractRevisionFromPath (Some (Scenario.chrome_of "chromium-1150"));
                        expectedRevision :=
                          extractRevisionFromPath (Some (Scenario.chrome_of "chromium-1150"));
                        isFallback := false;
                        resolved_source := "default" |};
       world_after := Scenario.fresh_cache;
       calls := [CallExistsSync (Scenario.chrome_of "chromium-1150")] |}.
Proof.
  apply (expected_path_resolves_ok Scenario.fresh_cache _
           (Scenario.playwright_at "chromium-1150")
           (Scenario.chrome_of "chromium-1150")).
  - reflexivity.
  - reflexivity.
  - vm_compute. reflexivity.
  - vm_compute. reflexivity.
Defined.

(** The existence of the expected path is all the first step looks at. *)
Remark expected_path_needs_no_access_check (w : World) (options : Options)
    (chromium : option Chromium) (p : string) :
  chromium_of w options = Some chromium →
  getDefaultChromiumPath chromium = Some p →
  existsSync w p = true →
  ∃ r, result (resolveChromium w options) = inr r ∧ status r = ok ∧ executablePath r = p.
Proof.
  intros Hc Hp Hex. unfold resolveChromium. rewrite Hc.
  unfold resolveChromium_with.
  rewrite (check_path_present w _ p Hp Hex). rewrite Hp. by eexists.
Qed.

(** C4.  When the expected path does not exist but a cache directory holds
    an entry that passes the executable-access check, [resolveChromium]
    returns (it does not throw) a result with status [fallback] whose
    executable path is the path of the candidate [findExistingChromium]
    selected; the installer is not run and the world is unchanged. *)
Theorem absent_expected_path_falls_back (w : World) (options : Options)
    (chromium : option Chromium) (dir : string) (entry : CacheEntry) :
  chromium_of w options = Some chromium →
  (∀ p, getDefaultChromiumPath chromium = Some p → existsSync w p = false) →
  dir ∈ getBrowserCacheDirectories w →
  entry ∈ collectCacheExecutables w dir →
  accessSync_X_OK w (entry_path entry) = true →
  let expected := extractRevisionFromPath (getDefaultChromiumPath chromium) in
  ∃ selected,
    findExistingChromium w expected = Some selected ∧
    selected ∈ collectCandidates w ∧
    result (resolveChromium w options) =
      inr {| status := fallback;
             executablePath := path selected;
             resolved_revision := revision_or_null (revision selected);
             expectedRevision := expected;
             isFallback := true;
             resolved_source := source selected |} ∧
    world_after (resolveChromium w options) = w ∧
    CallSpawnInstaller ∉ calls (resolveChromium w options).
Proof.
  intros Hc Habsent Hdir Hentry Hx expected.
  destruct (cache_entry_collected w dir entry Hdir Hentry Hx) as (c & Hcin & _).
  destruct (findExistingChromium_is_Some w expected) as [selected Hsel].
  { intros Hnil. rewrite Hnil in Hcin. by apply elem_of_nil in Hcin. }
  exists selected. split; [done|].
  split; [by apply findExistingChromium_least in Hsel as [? _]|].
  unfold resolveChromium. rewrite Hc. unfold resolveChromium_with.
  destruct (check_path_absent w _ Habsent) as (log & -> & Hlog).
  fold expected. rewrite Hsel. simpl. repeat split.
  intros Hin. apply elem_of_app in Hin as [Hin|Hin]; [done|].
  apply list_elem_of_singleton in Hin. discriminate.
Qed.

Lemma absent_expected_path_falls_back_witness :
  ∃ selected,
    findExistingChromium Scenario.stale_cache
      (extractRevisionFromPath
         (getDefaultChromiumPath (Scenario.playwright_at "chromium-1150"))) = Some selected ∧
    selected ∈ collectCandidates Scenario.stale_cache ∧
    result (resolveChromium Scenario.stale_cache
              {| opt_chromium := Some (Scenario.playwright_at "chromium-1150");
                 allowInstall := true |}) =
      inr {| status := fallback;
             executablePath := path selected;
             resolved_revision := revision_or_null (revision selected);
             expectedRevision :=
               extractRevisionFromPath
                 (getDefaultChromiumPath (Scenario.playwright_at "chromium-1150"));
             isFallback := true;
             resolved_source := source selected |} ∧
    world_after (resolveChromium Scenario.stale_cache
                   {| opt_chromium := Some (Scenario.playwright_at "chromium-1150");
                      allowInstall := true |}) = Scenario.stale_cache ∧
    CallSpawnInstaller ∉
      calls (resolveChromium Scenario.stale_cache
               {| opt_chromium := Some (Scenario.playwright_at "chromium-1150");
                  allowInstall := true |}).
Proof.
  apply (absent_expected_path_falls_back Scenario.stale_cache
           {| opt_chromium := Some (Scenario.playwright_at "chromium-1150");
              allowInstall := true |}
           (Scenario.playwright_at "chromium-1150")
           Scenario.cache
           {| entry_path := Scenario.chrome_of "chromium-1155";
              entry_revision := Some 1155 |}).
  - reflexivity.
  - intros p Hp. injection Hp as <-. vm_compute. reflexivity.
  - apply list_elem_of_In. vm_compute. left. reflexivity.
  - apply list_elem_of_In. vm_compute. right. left. reflexivity.
  - vm_compute. reflexivity.
Defined.


(** C8.  When the expected path does not exist and no candidate is found:
    if installation is not permitted, [resolveChromium] returns status
    [missing] and does not run the installer; if it is permitted, it runs
    the installer, then checks the expected path again, and returns status
    [installed] when the installation succeeded and throws the error
    [INSTALL_FAILED] when it did not. *)
Theorem nothing_found_installs_or_reports_missing (w : World) (options : Options)
    (chromium : option Chromium) :
  chromium_of w options = Some chromium →
  (∀ p, getDefaultChromiumPath chromium = Some p → existsSync w p = false) →
  findExistingChromium w (extractRevisionFromPath (getDefaultChromiumPath chromium)) = None →
  let outcome := resolveChromium w options in
  (allowInstall options = false →
     (∃ r, result outcome = inr r ∧ status r = missing) ∧
     world_after outcome = w ∧
     CallSpawnInstaller ∉ calls outcome) ∧
  (allowInstall options = true →
     CallSpawnInstaller ∈ calls outcome ∧
     world_after outcome = snd (spawnSync_install w) ∧
     (∀ p, installation_succeeds w chromium p →
        (∃ before,
           calls outcome = before ++ [CallSpawnInstaller; CallExistsSync p]) ∧
        result outcome =
          inr {| status := installed;
                 executablePath := p;
                 resolved_revision := extractRevisionFromPath (Some p);
                 expectedRevision := extractRevisionFromPath (Some p);
                 isFallback := false;
                 resolved_source := "install" |}) ∧
     ((∀ p, ¬ installation_succeeds w chromium p) →
        result outcome = inl INSTALL_FAILED)).
Proof.
  intros Hc Habsent Hnone outcome. subst outcome.
  unfold installation_succeeds, resolveChromium. rewrite Hc.
  unfold resolveChromium_with.
  destruct (check_path_absent w _ Habsent) as (log & -> & Hlog).
  rewrite Hnone.
  assert (Hst : fst (spawnSync_install w) = install_status w) by done.
  destruct (spawnSync_install w) as [st w'] eqn:Hspawn. simpl in Hst. subst st.
  split; intros ->; simpl.
  - split; [by eexists|]. split; [done|].
    intros Hin. apply elem_of_app in Hin as [Hin|Hin]; [done|].
    apply list_elem_of_singleton in Hin. discriminate.
  - case_bool_decide as Hstatus.
    + destruct (check_path w' (getDefaultChromiumPath chromium))
        as [present' log4] eqn:Hcheck.
      assert (Hcalled : ∀ l : list Call,
                 CallSpawnInstaller ∈
                   ((log ++ [CallFindExistingChromium
                               (extractRevisionFromPath (getDefaultChromiumPath chromium))])
                    ++ [CallSpawnInstaller]) ++ l).
      { intros l. apply elem_of_app. left. apply elem_of_app. right. left. }
      destruct present'; simpl; (split; [apply Hcalled|]); (split; [done|]); split.
      * intros p (_ & Hp & Hex).
        rewrite (check_path_present _ _ p Hp Hex) in Hcheck.
        injection Hcheck as <-. rewrite Hp. simpl. split; [|done].
        eexists. rewrite <- (app_assoc _ [CallSpawnInstaller]). reflexivity.
      * intros Hfail. exfalso. unfold check_path in Hcheck.
        destruct (getDefaultChromiumPath chromium) as [p|] eqn:Hp; [|discriminate].
        destruct (truthy (Some p)); [|discriminate].
        injection Hcheck as Hex _. by apply (Hfail p).
      * intros p (_ & Hp & Hex).
        rewrite (check_path_present _ _ p Hp Hex) in Hcheck. done.
      * done.
    + simpl. split; [apply elem_of_app; right; left|]. split; [done|]. split; [|done].
      intros p (Hok & _). done.
Qed.

Lemma nothing_found_installs_or_reports_missing_witness :
  result (resolveChromium
            (Scenario.nothing_installed (Some 0) (Scenario.cache_with ["chromium-1150"%string]))
            {| opt_chromium := Some (Scenario.playwright_at "chromium-1150");
               allowInstall := true |}) =
    inr {| status := installed;
           executablePath := Scenario.chrome_of "chromium-1150";
           resolved_revision :=
             extractRevisionFromPath (Some (Scenario.chrome_of "chromium-1150"));
           expectedRevision :=
             extractRevisionFromPath (Some (Scenario.chrome_of "chromium-1150"));
           isFallback := false;
           resolved_source := "install" |} ∧
  result (resolveChromium
            (Scenario.nothing_installed (Some 1) ∅)
            {| opt_chromium := Some (Scenario.playwright_at "chromium-1150");
               allowInstall := true |}) = inl INSTALL_FAILED ∧
  ∃ r, result (resolveChromium
                 (Scenario.nothing_installed (Some 0) (Scenario.cache_with ["chromium-1150"%string]))
                 {| opt_chromium := Some (Scenario.playwright_at "chromium-1150");
                    allowInstall := false |}) = inr r ∧ status r = missing.
Proof.
  split; [|split].
  - destruct (nothing_found_installs_or_reports_missing
                (Scenario.nothing_installed (Some 0) (Scenario.cache_with ["chromium-1150"%string]))
                {| opt_chromium := Some (Scenario.playwright_at "chromium-1150");
                   allowInstall := true |}
                (Scenario.playwright_at "chromium-1150")) as [_ Hallowed].
    + reflexivity.
    + intros p Hp. injection Hp as <-. vm_compute. reflexivity.
    + vm_compute. reflexivity.
    + destruct (Hallowed eq_refl) as (_ & _ & Hsuccess & _).
      apply Hsuccess. unfold installation_succeeds.
      split; [reflexivity|]. split; [reflexivity|]. vm_compute. reflexivity.
  - destruct (nothing_found_installs_or_reports_missing
                (Scenario.nothing_installed (Some 1) ∅)
                {| opt_chromium := Some (Scenario.playwright_at "chromium-1150");
                   allowInstall := true |}
                (Scenario.playwright_at "chromium-1150")) as [_ Hallowed].
    + reflexivity.
    + intros p Hp. injection Hp as <-. vm_compute. reflexivity.
    + vm_compute. reflexivity.
    + destruct (Hallowed eq_refl) as (_ & _ & _ & Hfailure).
      apply Hfailure. intros p (Hstatus & _). discriminate Hstatus.
  - destruct (nothing_found_installs_or_reports_missing
                (Scenario.nothing_installed (Some 0) (Scenario.cache_with ["chromium-1150"%string]))
                {| opt_chromium := Some (Scenario.playwright_at "chromium-1150");
                   allowInstall := false |}
                (Scenario.playwright_at "chromium-1150")) as [Hrefused _].
    + reflexivity.
    + intros p Hp. injection Hp as <-. vm_compute. reflexivity.
    + vm_compute. reflexivity.
    + destruct (Hrefused eq_refl) as (Hmissing & _). exact Hmissing.
Defined.

(** ** The ranking *)

(** C3.  With expected revision [R] and candidates [a], [b], [u] whose
    revisions are [R - 2], [R + 5] and unknown: the comparison function
    puts [a] before [b] and both before [u], the sorted array has them in
    that order, and the candidate returned is neither [b] nor [u]; it is
    [a] when there is no other candidate. *)
Theorem revision_scoring_prefers_nearest (w : World) (R : Z) (a b u : Candidate) :
  a ∈ collectCandidates w → b ∈ collectCandidates w → u ∈ collectCandidates w →
  revision a = Some (R - 2) → revision b = Some (R + 5) → revision u = None →
  score (Some R) a = 2 ∧ score (Some R) b = 5 ∧ score (Some R) u = MAX_SAFE_INTEGER ∧
  compare (Some R) a b < 0 ∧ compare (Some R) a u < 0 ∧ compare (Some R) b u < 0 ∧
  (∃ l1 l2 l3, sortedCandidates w (Some R) = l1 ++ a :: l2 ++ b :: l3) ∧
  (∃ l1 l2 l3, sortedCandidates w (Some R) = l1 ++ b :: l2 ++ u :: l3) ∧
  (∃ selected, findExistingChromium w (Some R) = Some selected ∧
               selected ≠ b ∧ selected ≠ u ∧ score (Some R) selected ≤ 2) ∧
  ((∀ c, c ∈ collectCandidates w → c = a ∨ c = b ∨ c = u) →
   findExistingChromium w (Some R) = Some a).
Proof.
  intros Ha Hb Hu Hra Hrb Hru.
  assert (Hsa : score (Some R) a = 2) by (unfold score; rewrite Hra; lia).
  assert (Hsb : score (Some R) b = 5) by (unfold score; rewrite Hrb; lia).
  assert (Hsu : score (Some R) u = MAX_SAFE_INTEGER) by (unfold score; by rewrite Hru).
  assert (Hab : compare (Some R) a b < 0) by (apply compare_after; lia).
  assert (Hau : compare (Some R) a u < 0)
    by (apply compare_after; unfold MAX_SAFE_INTEGER in *; lia).
  assert (Hbu : compare (Some R) b u < 0)
    by (apply compare_after; unfold MAX_SAFE_INTEGER in *; lia).
  assert (Hsel : ∃ selected, findExistingChromium w (Some R) = Some selected ∧
                   selected ≠ b ∧ selected ≠ u ∧ score (Some R) selected ≤ 2).
  { destruct (findExistingChromium_is_Some w (Some R)) as [selected Hsel].
    { intros Hnil. rewrite Hnil in Ha. by apply elem_of_nil in Ha. }
    exists selected. split; [done|]. repeat split.
    - intros ->. by apply (findExistingChromium_not w (Some R) a b).
    - intros ->. by apply (findExistingChromium_not w (Some R) a u).
    - apply findExistingChromium_least in Hsel as [_ Hleast].
      specialize (Hleast a Ha). apply compare_before in Hleast. lia. }
  repeat split; try done.
  - by apply sortedCandidates_order.
  - by apply sortedCandidates_order.
  - intros Honly. destruct Hsel as (selected & Hsel & Hnb & Hnu & _).
    rewrite Hsel. f_equal.
    apply findExistingChromium_least in Hsel as [Hin _].
    destruct (Honly _ Hin) as [?|[?|?]]; done.
Qed.

Lemma revision_scoring_prefers_nearest_witness :
  findExistingChromium Scenario.stale_cache (Some 1150) =
    Some (Scenario.cache_candidate "chromium-1148" 1148).
Proof.
  apply (revision_scoring_prefers_nearest Scenario.stale_cache 1150
           (Scenario.cache_candidate "chromium-1148" 1148)
           (Scenario.cache_candidate "chromium-1155" 1155)
           Scenario.env_candidate).
  - apply list_elem_of_In. vm_compute. right. left. reflexivity.
  - apply list_elem_of_In. vm_compute. right. right. left. reflexivity.
  - apply list_elem_of_In. vm_compute. left. reflexivity.
  - reflexivity.
  - reflexivity.
  - reflexivity.
  - intros c Hc. apply list_elem_of_In in Hc. vm_compute in Hc.
    destruct Hc as [<-|[<-|[<-|[]]]]; auto.
Defined.

(** C10.  Of two candidates with the same score, the one with the higher
    revision (an unknown revision counting as 0) is put first by the
    comparison function, precedes the other in the sorted array, and the
    other is not the candidate returned. *)
Theorem equal_scores_prefer_higher_revision (w : World) (R : option Z) (a b : Candidate) :
  a ∈ collectCandidates w → b ∈ collectCandidates w →
  score R a = score R b →
  revision_or_0 b < revision_or_0 a →
  compare R a b = revision_or_0 b - revision_or_0 a ∧
  compare R a b < 0 ∧
  (∃ l1 l2 l3, sortedCandidates w R = l1 ++ a :: l2 ++ b :: l3) ∧
  findExistingChromium w R ≠ Some b.
Proof.
  intros Ha Hb Hscore Hrev.
  assert (Hcmp : compare R a b = revision_or_0 b - revision_or_0 a).
  { unfold compare. rewrite Hscore, Z.sub_diag. reflexivity. }
  assert (Hlt : compare R a b < 0) by lia.
  repeat split; try done.
  - by apply sortedCandidates_order.
  - by apply (findExistingChromium_not w R a b).
Qed.

Lemma equal_scores_prefer_higher_revision_witness :
  compare (Some 1150) (Scenario.cache_candidate "chromium-1160" 1160)
                      (Scenario.cache_candidate "chromium-1140" 1140) = 1140 - 1160 ∧
  findExistingChromium Scenario.equidistant_cache (Some 1150) ≠
    Some (Scenario.cache_candidate "chromium-1140" 1140).
Proof.
  destruct (equal_scores_prefer_higher_revision Scenario.equidistant_cache (Some 1150)
              (Scenario.cache_candidate "chromium-1160" 1160)
              (Scenario.cache_candidate "chromium-1140" 1140))
    as (Hcmp & _ & _ & Hnot).
  - apply list_elem_of_In. vm_compute. right. left. reflexivity.
  - apply list_elem_of_In. vm_compute. left. reflexivity.
  - reflexivity.
  - vm_compute. reflexivity.
  - split; [exact Hcmp|exact Hnot].
Defined.

(** A candidate from the environment carries no revision, and so does
    every candidate that is not from a cache. *)
Lemma env_candidate_has_no_revision (w : World) (e : Candidate) :
  e ∈ collectCandidates w → source e = "env"%string → revision e = None.
Proof.
  intros He Hsrc. pose proof (collectCandidates_usable w) as Hall.
  eapply Forall_forall in Hall as (_ & _ & Hhanded); [|exact He].
  destruct Hhanded as [[_ ?]|[Hcache|[Hsys _]]]; [done| |]; congruence.
Qed.

Lemma revision_is_from_cache (w : World) (c : Candidate) :
  c ∈ collectCandidates w → is_Some (revision c) → source c = "cache"%string.
Proof.
  intros Hc [r Hr]. pose proof (collectCandidates_usable w) as Hall.
  eapply Forall_forall in Hall as (_ & _ & Hhanded); [|exact Hc].
  destruct Hhanded as [[_ ?]|[Hcache|[_ ?]]]; [congruence|done|congruence].
Qed.

(** C9, as stated, fails.  With expected revision [Number.MAX_SAFE_INTEGER]
    (read from the expected path), a cache directory [chromium-0] and an
    executable named by [PLAYWRIGHT_CHROMIUM_PATH], the cache candidate has
    an extracted revision (0) and the same score as the candidate from the
    environment, the revisions counted for the tie are both 0, and the
    candidate from the environment, recorded first, is the one returned. *)
Lemma env_override_selected_over_cache_revision :
  extractRevisionFromPath (Some (Scenario.chrome_of "chromium-9007199254740991")) =
    Some MAX_SAFE_INTEGER ∧
  collectCandidates Scenario.far_cache =
    [Scenario.env_candidate; Scenario.cache_candidate "chromium-0" 0] ∧
  compare (Some MAX_SAFE_INTEGER)
    Scenario.env_candidate (Scenario.cache_candidate "chromium-0" 0) = 0 ∧
  findExistingChromium Scenario.far_cache (Some MAX_SAFE_INTEGER) =
    Some Scenario.env_candidate ∧
  ¬ (∀ (w : World) (R : Z) (e c : Candidate) (r : Z),
       e ∈ collectCandidates w → source e = "env"%string →
       c ∈ collectCandidates w → source c = "cache"%string → revision c = Some r →
       findExistingChromium w (Some R) ≠ Some e).
Proof.
  assert (Hall : collectCandidates Scenario.far_cache =
                 [Scenario.env_candidate; Scenario.cache_candidate "chromium-0" 0])
    by (vm_compute; reflexivity).
  assert (Hsel : findExistingChromium Scenario.far_cache (Some MAX_SAFE_INTEGER) =
                 Some Scenario.env_candidate)
    by (vm_compute; reflexivity).
  split; [vm_compute; reflexivity|]. split; [exact Hall|].
  split; [vm_compute; reflexivity|]. split; [exact Hsel|].
  intros Hclaim.
  apply (Hclaim Scenario.far_cache MAX_SAFE_INTEGER Scenario.env_candidate
           (Scenario.cache_candidate "chromium-0" 0) 0).
  - rewrite Hall. left.
  - reflexivity.
  - rewrite Hall. right. left.
  - reflexivity.
  - reflexivity.
  - exact Hsel.
Qed.

(** C9, amended.  With a known expected revision [R], a candidate from an
    environment override carries no revision and is scored
    [Number.MAX_SAFE_INTEGER]; it is ordered after, and never returned in
    the presence of, a candidate whose extracted revision differs from [R]
    by less than [Number.MAX_SAFE_INTEGER]: the candidate returned then
    comes from a cache. *)
Theorem env_override_ranked_last (w : World) (R : Z) (e c : Candidate) (r : Z) :
  e ∈ collectCandidates w → source e = "env"%string →
  c ∈ collectCandidates w → revision c = Some r →
  Z.abs (r - R) < MAX_SAFE_INTEGER →
  revision e = None ∧
  score (Some R) e = MAX_SAFE_INTEGER ∧
  compare (Some R) c e < 0 ∧
  findExistingChromium w (Some R) ≠ Some e ∧
  ∃ selected, findExistingChromium w (Some R) = Some selected ∧
              source selected = "cache"%string.
Proof.
  intros He Hsrc Hc Hr Hnear.
  pose proof (env_candidate_has_no_revision w e He Hsrc) as Hnone.
  assert (Hse : score (Some R) e = MAX_SAFE_INTEGER) by (unfold score; by rewrite Hnone).
  assert (Hsc : score (Some R) c < MAX_SAFE_INTEGER) by (unfold score; by rewrite Hr).
  assert (Hlt : compare (Some R) c e < 0) by (apply compare_after; lia).
  repeat split; try done.
  - by apply (findExistingChromium_not w (Some R) c e).
  - destruct (findExistingChromium_is_Some w (Some R)) as [selected Hsel].
    { intros Hnil. rewrite Hnil in Hc. by apply elem_of_nil in Hc. }
    exists selected. split; [done|].
    apply findExistingChromium_least in Hsel as [Hin Hleast].
    apply (revision_is_from_cache w selected Hin).
    specialize (Hleast c Hc). apply compare_before in Hleast.
    destruct (revision selected) as [rs|] eqn:Hrs; [by eexists|].
    exfalso. unfold score in Hleast at 1 3. rewrite Hrs in Hleast. lia.
Qed.

Lemma env_override_ranked_last_witness :
  findExistingChromium Scenario.stale_cache (Some 1150) ≠ Some Scenario.env_candidate.
Proof.
  destruct (env_override_ranked_last Scenario.stale_cache 1150
              Scenario.env_candidate (Scenario.cache_candidate "chromium-1155" 1155) 1155)
    as (_ & _ & _ & Hnot & _).
  - apply list_elem_of_In. vm_compute. left. reflexivity.
  - reflexivity.
  - apply list_elem_of_In. vm_compute. right. right. left. reflexivity.
  - reflexivity.
  - vm_compute. reflexivity.
  - exact Hnot.
Defined.

(** ** The driver *)

(** C7.  When the input file does not exist, [convertHTMLToPDF] ends the
    process with exit code 1 and has done nothing else: the resolver was
    not called and no browser was launched.  The code differs from 0 and
    from the code 2 with which a run ends whose resolver reports the
    browser [missing]. *)
Theorem missing_input_exits_before_browser (w : World) (chromium : option Chromium)
    (s : Session) (inputFile outputFile : string) (customCSS : option string) :
  existsSync w inputFile = false →
  convertHTMLToPDF w chromium s inputFile outputFile customCSS =
    {| events := [EvExit 1]; ending := Exited 1 |} ∧
  1 ≠ 0 ∧
  ∀ (w2 : World) (chromium2 : option Chromium) (s2 : Session)
    (inputFile2 outputFile2 : string) (customCSS2 : option string) (browserInfo : Resolution),
    existsSync w2 inputFile2 = true →
    result (resolveChromium w2 (resolver_options w2 chromium2)) = inr browserInfo →
    status browserInfo = missing →
    convertHTMLToPDF w2 chromium2 s2 inputFile2 outputFile2 customCSS2 =
      {| events := [EvResolveChromium (allowInstall_from_env w2); EvExit 2];
         ending := Exited 2 |} ∧
    2 ≠ 1.
Proof.
  intros Hmissing. unfold convertHTMLToPDF. rewrite Hmissing. simpl.
  split; [done|]. split; [done|].
  intros w2 chromium2 s2 inputFile2 outputFile2 customCSS2 browserInfo Hex Hres Hstatus.
  rewrite Hex. simpl. rewrite Hres, Hstatus. done.
Qed.

Lemma missing_input_exits_before_browser_witness :
  convertHTMLToPDF Scenario.fresh_cache (Scenario.playwright_at "chromium-1150")
    (Scenario.smooth [3; 5; 5; 5; 5]) "/work/absent.html" "/work/absent.pdf" None =
    {| events := [EvExit 1]; ending := Exited 1 |}.
Proof.
  apply (missing_input_exits_before_browser Scenario.fresh_cache
           (Scenario.playwright_at "chromium-1150")
           (Scenario.smooth [3; 5; 5; 5; 5]) "/work/absent.html" "/work/absent.pdf" None).
  vm_compute. reflexivity.
Defined.

(** The handlers around the conversion: the browser is closed exactly when
    the conversion ran to its end; when it throws, the run ends in
    [process.exit(1)] and [browser.close()] is not reached. *)
Lemma guarded_conversion_closes_iff_done (s : Session) (launched : list Event) :
  EvClose ∉ launched →
  (EvClose ∈ events (guarded_conversion s launched) ↔ snd (conversion s) = BodyDone).
Proof.
  intros Hfresh. unfold guarded_conversion.
  assert (Hbody : EvClose ∉ fst (conversion s)).
  { unfold conversion. destruct (render s); simpl.
    - intros Hin%list_elem_of_singleton. discriminate.
    - destruct (pollPagination (ticks s) poll_start 0) as [[how st] n].
      destruct how, (export s); simpl;
        rewrite ?elem_of_cons, ?elem_of_nil; intros Hin;
        repeat (destruct Hin as [Hin|Hin]; try discriminate); done. }
  destruct (conversion s) as [evs how]. simpl in Hbody |- *.
  destruct how; simpl.
  - split; [done|]. intros _.
    apply elem_of_app. right. apply elem_of_app. right. left.
  - split; [|done]. unfold exit_with. simpl. intros Hin.
    apply elem_of_app in Hin as [Hin|Hin].
    + apply elem_of_app in Hin as [Hin|Hin]; [done|].
      apply elem_of_app in Hin as [Hin|Hin]; [done|].
      apply list_elem_of_singleton in Hin. discriminate.
    + apply list_elem_of_singleton in Hin. discriminate.
  - split; [|done]. intros Hin.
    apply elem_of_app in Hin as [Hin|Hin]; done.
Qed.

(** C6, the failing run.  The input exists, the expected browser is
    installed and launches, and navigation then throws: the handler calls
    [process.exit(1)], the run ends there, and the browser that was
    launched is never closed. *)
Theorem failed_conversion_exits_without_closing :
  convertHTMLToPDF Scenario.fresh_cache (Scenario.playwright_at "chromium-1150")
    Scenario.failing_navigation "/work/report.html" "/work/report.pdf" None =
    {| events := [EvResolveChromium true; EvReadFile "/work/report.html";
                  EvLaunch None; EvRender; EvConversionFailed; EvExit 1];
       ending := Exited 1 |} ∧
  EvLaunch None ∈
    events (convertHTMLToPDF Scenario.fresh_cache (Scenario.playwright_at "chromium-1150")
              Scenario.failing_navigation "/work/report.html" "/work/report.pdf" None) ∧
  EvClose ∉
    events (convertHTMLToPDF Scenario.fresh_cache (Scenario.playwright_at "chromium-1150")
              Scenario.failing_navigation "/work/report.html" "/work/report.pdf" None).
Proof.
  assert (Hrun :
    convertHTMLToPDF Scenario.fresh_cache (Scenario.playwright_at "chromium-1150")
      Scenario.failing_navigation "/work/report.html" "/work/report.pdf" None =
      {| events := [EvResolveChromium true; EvReadFile "/work/report.html";
                    EvLaunch None; EvRender; EvConversionFailed; EvExit 1];
         ending := Exited 1 |}) by (vm_compute; reflexivity).
  rewrite Hrun. cbn [events]. split; [reflexivity|]. split.
  - right. right. left.
  - intros Hin. apply list_elem_of_In in Hin. cbn [In] in Hin.
    destruct Hin as [H|[H|[H|[H|[H|[H|[]]]]]]]; discriminate H.
Qed.

(** On the run that succeeds the browser is closed. *)
Example successful_conversion_closes :
  convertHTMLToPDF Scenario.fresh_cache (Scenario.playwright_at "chromium-1150")
    (Scenario.smooth [3; 5; 5; 5; 5]) "/work/report.html" "/work/report.pdf" None =
    {| events := [EvResolveChromium true; EvReadFile "/work/report.html";
                  EvLaunch None; EvRender; EvPoll 5; EvExport; EvClose];
       ending := Fulfilled |}.
Proof. vm_compute. reflexivity. Qed.

(** ** The pagination polling loop *)


Lemma held_after_prefix (pre obs : list Z) (i : nat) (x : Z) :
  held (pre ++ obs) (length pre + i) x ↔ held obs i x.
Proof.
  unfold held.
  rewrite <- !Nat.add_assoc, !lookup_app_r by lia.
  replace (length pre + i - length pre)%nat with i by lia.
  replace (length pre + (i + 1) - length pre)%nat with (i + 1)%nat by lia.
  replace (length pre + (i + 2) - length pre)%nat with (i + 2)%nat by lia.
  replace (length pre + (i + 3) - length pre)%nat with (i + 3)%nat by lia.
  done.
Qed.

Lemma held_after_run (k : nat) (last : Z) (obs : list Z) (i : nat) (x : Z) :
  held (replicate (S k) last ++ obs) (S k + i) x ↔ held obs i x.
Proof.
  rewrite <- (held_after_prefix (replicate (S k) last) obs i x).
  by rewrite length_replicate.
Qed.

(** A window of four equal counts does not start inside a run of at most
    three counts that is followed by a different one. *)
Lemma held_not_across_change (k : nat) (last c : Z) (rest : list Z) (j : nat) (y : Z) :
  (k < 3)%nat → c ≠ last →
  held (replicate (S k) last ++ c :: rest) j y → (S k ≤ j)%nat.
Proof.
  intros Hk Hc (H0 & H1 & H2 & H3).
  destruct (decide (S k ≤ j)%nat) as [|Hj]; [done|]. exfalso.
  destruct k as [|[|[|k]]]; [| | |lia];
    destruct j as [|[|[|j]]]; try lia; simpl in *; congruence.
Qed.

Lemma held_short (obs : list Z) (i : nat) (x : Z) :
  (length obs ≤ 3)%nat → ¬ held obs i x.
Proof.
  intros Hlen (_ & _ & _ & H3). apply lookup_lt_Some in H3. lia.
Qed.

(** The loop leaves at once when entered with [stableCount] 3. *)
Lemma pollPagination_stable_now (ticks : list Tick) (st : PollState) (n : nat) :
  stableCount st = 3 → pollPagination ticks st n = (Stabilized, st, n).
Proof. intros H. destruct ticks; simpl; by rewrite H. Qed.

Lemma pollPagination_step (t : Tick) (rest : list Tick) (st : PollState)
    (n : nat) (c : Z) :
  stableCount st < 3 → elapsed t ≤ maxWaitTime → currentPageCount t = Some c →
  pollPagination (t :: rest) st n = pollPagination rest (check st c) (S n).
Proof.
  intros Hs Ht Hc. simpl.
  destruct (Z.ltb_spec (stableCount st) 3); [|lia]. simpl.
  destruct (Z.gtb_spec (elapsed t) maxWaitTime); [lia|]. by rewrite Hc.
Qed.

(** The loop from any state: it leaves by [stableCount] reaching 3 after
    the sample that completes the first window of four equal counts, the
    [k + 1] counts already equal at the start included. *)
Lemma pollPagination_stabilized (ticks : list Tick) :
  Forall sampled_in_time ticks →
  ∀ (last : Z) (k n0 : nat) (st' : PollState) (n : nat),
    (k ≤ 3)%nat →
    pollPagination ticks {| lastPageCount := last; stableCount := Z.of_nat k |} n0 =
      (Stabilized, st', n) ↔
    ∃ i, (n + k = n0 + i + 3)%nat ∧ stableCount st' = 3 ∧
         held (replicate (S k) last ++ omap currentPageCount ticks) i (lastPageCount st') ∧
         ∀ j y, (j < i)%nat →
                ¬ held (replicate (S k) last ++ omap currentPageCount ticks) j y.
Proof.
  intros Hticks.
  assert (Hnow : ∀ (ts : list Tick) (last : Z) (n0 : nat) (st' : PollState) (n : nat),
    pollPagination ts {| lastPageCount := last; stableCount := Z.of_nat 3 |} n0 =
      (Stabilized, st', n) ↔
    ∃ i, (n + 3 = n0 + i + 3)%nat ∧ stableCount st' = 3 ∧
         held (replicate 4 last ++ omap currentPageCount ts) i (lastPageCount st') ∧
         ∀ j y, (j < i)%nat → ¬ held (replicate 4 last ++ omap currentPageCount ts) j y).
  { intros ts last n0 st' n. rewrite pollPagination_stable_now by done.
    assert (Hfirst : held (replicate 4 last ++ omap currentPageCount ts) 0 last)
      by (repeat split).
    split.
    - intros [= <- <-]. exists 0%nat. simpl. repeat split; try done; try lia.
    - intros (i & Hn & Hs & (Hx & _) & Hleast).
      destruct i as [|i]; [|exfalso; apply (Hleast 0%nat last); [lia|done]].
      simpl in Hx. destruct st' as [last' stable']. simpl in *.
      injection Hx as <-. subst stable'. repeat f_equal. lia. }
  induction Hticks as [|t rest [Ht [c Hc]] Hrest IH]; intros last k n0 st' n Hk.
  - destruct (decide (k = 3%nat)) as [->|Hne]; [apply Hnow|].
    simpl. destruct (Z.ltb_spec (Z.of_nat k) 3); [|lia]. simpl. split; [done|].
    intros (i & _ & _ & Hheld & _). exfalso. revert Hheld. apply held_short.
    simpl. rewrite length_app, length_replicate. simpl. lia.
  - destruct (decide (k = 3%nat)) as [->|Hne]; [apply Hnow|].
    rewrite (pollPagination_step t rest _ n0 c) by (simpl; try done; lia).
    assert (Homap : omap currentPageCount (t :: rest) = c :: omap currentPageCount rest)
      by (simpl; by rewrite Hc).
    rewrite Homap. unfold check. cbn [lastPageCount stableCount].
    destruct (Z.eqb_spec c last) as [->|Hchanged].
    + replace (Z.of_nat k + 1) with (Z.of_nat (S k)) by lia.
      rewrite IH by lia.
      replace (replicate (S k) last ++ last :: omap currentPageCount rest)
        with (replicate (S (S k)) last ++ omap currentPageCount rest)
        by (rewrite (replicate_S_end (S k)), <- app_assoc; done).
      split; intros (i & Hn & Hrestate); exists i; (split; [lia|done]).
    + rewrite (IH c 0%nat) by lia.
      change (replicate 1 c ++ omap currentPageCount rest)
        with (c :: omap currentPageCount rest).
      split.
      * intros (i & Hn & Hs & Hheld & Hleast).
        exists (S k + i)%nat. split; [lia|]. split; [done|]. split.
        -- by apply held_after_run.
        -- intros j y Hj Hj_held.
           pose proof (held_not_across_change k last c _ j y ltac:(lia) Hchanged Hj_held).
           apply (Hleast (j - S k)%nat y); [lia|].
           apply (held_after_run k last).
           by replace (S k + (j - S k))%nat with j by lia.
      * intros (i & Hn & Hs & Hheld & Hleast).
        pose proof (held_not_across_change k last c _ i _ ltac:(lia) Hchanged Hheld).
        exists (i - S k)%nat. split; [lia|]. split; [done|]. split.
        -- apply (held_after_run k last).
           by replace (S k + (i - S k))%nat with i by lia.
        -- intros j y Hj Hj_held. apply (Hleast (S k + j)%nat y); [lia|].
           by apply held_after_run.
Qed.

(** C1, as stated, fails on the samples [3; 5; 5; 5]: the count 5 has been
    sampled three times, yet only two checks found it unchanged, the loop
    has not left with [stableCount] 3 and asks for a further sample. *)
Lemma three_samples_of_five_not_yet_stable :
  pollPagination (simulate [3; 5; 5; 5]) poll_start 0 =
    (StillPolling, {| lastPageCount := 5; stableCount := 2 |}, 4%nat) ∧
  fst (fst (pollPagination (simulate [3; 5; 5; 5]) poll_start 0)) ≠ Stabilized ∧
  ending (convertHTMLToPDF Scenario.fresh_cache (Scenario.playwright_at "chromium-1150")
            (Scenario.smooth [3; 5; 5; 5]) "/work/report.html" "/work/report.pdf" None) =
    Polling.
Proof.
  split; [vm_compute; reflexivity|]. split; [vm_compute; discriminate|].
  vm_compute. reflexivity.
Qed.

(** C1, amended.  For samples taken before the time-out, the loop leaves
    with [stableCount] 3 after the [n]-th sample exactly when that sample
    completes the first run of three consecutive checks that each found the
    count equal to the one recorded by the check before (initially 0), that
    is, the first window of four equal entries in the initial count
    followed by the samples; [lastPageCount] is then that count. *)
Theorem pagination_stable_after_three_unchanged_checks (ticks : list Tick)
    (st : PollState) (n : nat) :
  Forall sampled_in_time ticks →
  pollPagination ticks poll_start 0 = (Stabilized, st, n) ↔
  ∃ i, n = (i + 3)%nat ∧ stableCount st = 3 ∧
       held (observed ticks) i (lastPageCount st) ∧
       ∀ j y, (j < i)%nat → ¬ held (observed ticks) j y.
Proof.
  intros Hticks.
  change poll_start with {| lastPageCount := 0; stableCount := Z.of_nat 0 |}.
  rewrite (pollPagination_stabilized ticks Hticks 0 0%nat 0%nat st n) by lia.
  change (replicate 1 0 ++ omap currentPageCount ticks) with (observed ticks).
  split; intros (i & Hn & Hrest); exists i; (split; [lia|done]).
Qed.

Lemma pagination_stable_after_three_unchanged_checks_witness :
  pollPagination (simulate [3; 5; 5; 5; 5]) poll_start 0 =
    (Stabilized, {| lastPageCount := 5; stableCount := 3 |}, 5%nat).
Proof.
  apply (pagination_stable_after_three_unchanged_checks (simulate [3; 5; 5; 5; 5])).
  - apply Forall_forall. intros t Ht. apply list_elem_of_In in Ht.
    vm_compute in Ht.
    repeat (destruct Ht as [<-|Ht];
            [split; [vm_compute; discriminate|by eexists]|]).
    destruct Ht.
  - exists 2%nat. split; [reflexivity|]. split; [reflexivity|]. split.
    + repeat split.
    + intros j y Hj (H0 & H1 & _).
      destruct j as [|[|j]]; [| |lia]; vm_compute in H0, H1; congruence.
Defined.

(** * Further properties of the resolver *)

(** ** [extractRevisionFromPath] *)

Lemma span_digits_spec (s : string) :
  all_digits (fst (span_digits s)) = true ∧
  s = fst (span_digits s) +:+ snd (span_digits s) ∧
  no_leading_digit (snd (span_digits s)).
Proof.
  induction s as [|c s IH]; simpl; [done|].
  destruct (is_digit c) eqn:Hc.
  - destruct (span_digits s) as [ds rest]. simpl in *. rewrite Hc.
    destruct IH as (? & -> & ?). done.
  - simpl. by rewrite Hc.
Qed.


Lemma parseInt_fold_nonneg (ds : string) (acc : Z) :
  all_digits ds = true → 0 ≤ acc →
  0 ≤ fold_left (fun acc c => 10 * acc + (Z.of_N (N_of_ascii c) - 48))
        (list_ascii_of_string ds) acc.
Proof.
  revert acc. induction ds as [|c ds IH]; intros acc Hds Hacc; simpl in *; [done|].
  apply andb_true_iff in Hds as [Hc Hds]. apply IH; [done|].
  unfold is_digit in Hc. apply andb_true_iff in Hc as [Hlo _].
  apply N.leb_le in Hlo. lia.
Qed.

Lemma parseInt_digits_nonneg (ds : string) : all_digits ds = true → 0 ≤ parseInt_digits ds.
Proof. intros Hds. by apply parseInt_fold_nonneg. Qed.

(** A match of the expression at the start of [s]: one of the names,
    in any letter case, a dash, and the digits that follow, at least one. *)
Lemma match_revision_here_spec (s ds : string) :
  match_revision_here s = Some ds →
  ∃ name rest, name ∈ browser_names ∧
               match_ci name s = Some (String "-"%char rest) ∧
               fst (span_digits rest) = ds ∧ ds ≠ EmptyString.
Proof.
  change (match_revision_here s) with (revision_alternatives s browser_names).
  generalize browser_names.
  intros names. induction names as [|name names IH]; [simpl; intros [=]|].
  assert (Hnext : ∀ o : option string,
            o = Some ds →
            (o = Some ds → ∃ n rest, n ∈ names ∧
                 match_ci n s = Some (String "-"%char rest) ∧
                 fst (span_digits rest) = ds ∧ ds ≠ EmptyString) →
            ∃ n rest, n ∈ name :: names ∧ match_ci n s = Some (String "-"%char rest) ∧
                      fst (span_digits rest) = ds ∧ ds ≠ EmptyString).
  { intros o Ho Hi. destruct (Hi Ho) as (n & rest & Hn & Hrest).
    exists n, rest. split; [by right|done]. }
  simpl. destruct (match_ci name s) as [[|c rest]|] eqn:Hm;
    try (intros H; exact (Hnext _ H IH)).
  destruct c as [[] [] [] [] [] [] [] []];
    try (intros H; exact (Hnext _ H IH)).
  destruct (span_digits rest) as [[|d ds'] rest'] eqn:Hs;
    try (intros H; exact (Hnext _ H IH)).
  intros [= <-]. exists name, rest. split; [left|]. split; [done|].
  by rewrite Hs.
Qed.

Lemma match_revision_here_digits (s ds : string) :
  match_revision_here s = Some ds → all_digits ds = true.
Proof.
  intros (name & rest & _ & _ & <- & _)%match_revision_here_spec.
  apply span_digits_spec.
Qed.

Lemma match_revision_unfold (s : string) :
  match_revision s =
    match match_revision_here s with
    | Some ds => Some ds
    | None => match s with
              | EmptyString => None
              | String _ s' => match_revision s'
              end
    end.
Proof. destruct s; reflexivity. Qed.

Lemma match_revision_digits (s ds : string) :
  match_revision s = Some ds → all_digits ds = true.
Proof.
  induction s as [|c s IH]; rewrite match_revision_unfold.
  - destruct (match_revision_here EmptyString) eqn:H; [|done].
    intros [= <-]. by eapply match_revision_here_digits.
  - destruct (match_revision_here (String c s)) eqn:H.
    + intros [= <-]. by eapply match_revision_here_digits.
    + exact IH.
Qed.

Lemma revision_of_path_nonneg (input : option string) (r : Z) :
  extractRevisionFromPath input = Some r → 0 ≤ r.
Proof.
  unfold extractRevisionFromPath.
  destruct (truthy input); simpl; [|done]. destruct input as [s|]; [|done].
  destruct (match_revision s) as [ds|] eqn:Hds; simpl; [|done].
  intros [= <-]. apply parseInt_digits_nonneg. by eapply match_revision_digits.
Qed.

(** X1.  A revision read from a path is never negative. *)
Theorem extractRevisionFromPath_nonneg (input : option string) (r : Z) :
  extractRevisionFromPath input = Some r → 0 ≤ r.
Proof. apply revision_of_path_nonneg. Qed.

Lemma extractRevisionFromPath_nonneg_witness : 0 ≤ 1148.
Proof.
  apply (extractRevisionFromPath_nonneg
           (Some "/home/kimi/.cache/ms-playwright/chromium-1148/chrome-linux/chrome"%string)).
  vm_compute. reflexivity.
Defined.

(** One alternative of the expression, with the test for the dash made
    explicit. *)
Lemma revision_alternatives_cons (s name : string) (more : list string) :
  revision_alternatives s (name :: more) =
    match match_ci name s with
    | Some (String c rest) =>
        if Ascii.eqb c "-"%char then
          match fst (span_digits rest) with
          | EmptyString => revision_alternatives s more
          | ds => Some ds
          end
        else revision_alternatives s more
    | _ => revision_alternatives s more
    end.
Proof.
  simpl. destruct (match_ci name s) as [[|c rest]|]; try reflexivity.
  destruct c as [[] [] [] [] [] [] [] []]; try reflexivity.
  destruct (span_digits rest) as [[|d ds] rest']; reflexivity.
Qed.

Lemma lower_idempotent (c : ascii) : lower (lower c) = lower c.
Proof. destruct c as [[] [] [] [] [] [] [] []]; reflexivity. Qed.

Lemma is_digit_lower (c : ascii) : is_digit (lower c) = is_digit c.
Proof. destruct c as [[] [] [] [] [] [] [] []]; reflexivity. Qed.

Lemma lower_digit (c : ascii) : is_digit c = true → lower c = c.
Proof. destruct c as [[] [] [] [] [] [] [] []]; (reflexivity || discriminate). Qed.

Lemma lower_dash (c : ascii) : Ascii.eqb (lower c) "-"%char = Ascii.eqb c "-"%char.
Proof. destruct c as [[] [] [] [] [] [] [] []]; reflexivity. Qed.

Lemma match_ci_lowercase (pat s : string) :
  match_ci pat (lowercase s) = lowercase <$> match_ci pat s.
Proof.
  revert s. induction pat as [|p pat IH]; intros s; [by destruct s|].
  destruct s as [|c s]; simpl; [done|]. rewrite lower_idempotent.
  destruct (Ascii.eqb (lower p) (lower c)); [apply IH|done].
Qed.

Lemma span_digits_lowercase (s : string) :
  span_digits (lowercase s) = (fst (span_digits s), lowercase (snd (span_digits s))).
Proof.
  induction s as [|c s IH]; simpl; [done|]. rewrite is_digit_lower.
  destruct (is_digit c) eqn:Hc; [|done].
  rewrite IH. destruct (span_digits s) as [ds rest]. simpl. by rewrite lower_digit.
Qed.

Lemma revision_alternatives_lowercase (s : string) (names : list string) :
  revision_alternatives (lowercase s) names = revision_alternatives s names.
Proof.
  induction names as [|name names IH]; [done|].
  rewrite !revision_alternatives_cons, match_ci_lowercase, IH.
  destruct (match_ci name s) as [[|c rest]|]; simpl; try done.
  rewrite lower_dash, span_digits_lowercase. done.
Qed.

Lemma match_revision_lowercase (s : string) :
  match_revision (lowercase s) = match_revision s.
Proof.
  induction s as [|c s IH]; [done|].
  rewrite (match_revision_unfold (String c s)).
  rewrite (match_revision_unfold (lowercase (String c s))).
  change (match_revision_here (lowercase (String c s)))
    with (revision_alternatives (lowercase (String c s)) browser_names).
  rewrite revision_alternatives_lowercase.
  change (revision_alternatives (String c s) browser_names)
    with (match_revision_here (String c s)).
  destruct (match_revision_here (String c s)); [done|]. simpl. exact IH.
Qed.

(** X2.  The letter case of a path does not matter to the revision read
    from it. *)
Theorem extractRevisionFromPath_ignores_case (s : string) :
  extractRevisionFromPath (Some (lowercase s)) = extractRevisionFromPath (Some s).
Proof.
  unfold extractRevisionFromPath. rewrite match_revision_lowercase.
  by destruct s.
Qed.



(** ** [getBrowserCacheDirectories] *)

Lemma getBrowserCacheDirectories_stages (w : World) :
  getBrowserCacheDirectories w =
    dirs (add_path_list w "PDF_EXTRA_BROWSER_PATHS"
            (stage_users w
               (stage_unix w
                  (stage_homes w
                     (add_path_list w "PLAYWRIGHT_BROWSERS_PATH" cache_dirs_start))))).
Proof. reflexivity. Qed.

Section CacheDirectories.
Context (w : World) (P : list string → Prop).
Hypothesis P_kept : kept_by_dirs P.

Lemma dirs_add_keeps (st : DirState) (d : string) :
  P (dirs st) → P (dirs (dirs_add d st)).
Proof. apply P_kept. Qed.

Lemma addHomeDir_keeps (st : DirState) (h : string) :
  P (dirs st) → P (dirs (addHomeDir w st h)).
Proof.
  intros Hst. unfold addHomeDir.
  destruct (negb (truthy (Some h))); [done|].
  case_decide; [done|]. simpl. by apply P_kept.
Qed.

Lemma add_path_list_keeps (name : string) (st : DirState) :
  P (dirs st) → P (dirs (add_path_list w name st)).
Proof.
  intros Hst. unfold add_path_list.
  destruct (process_env w name) as [v|]; [|done].
  destruct (truthy (Some v)); [|done].
  apply (fold_left_invariant (fun s => P (dirs s))); [done|].
  intros. by apply dirs_add_keeps.
Qed.

Lemma stage_homes_keeps (st : DirState) : P (dirs st) → P (dirs (stage_homes w st)).
Proof.
  intros Hst. unfold stage_homes.
  destruct (process_env w "HOME") as [h|]; [destruct (truthy (Some h))|];
    auto using addHomeDir_keeps.
Qed.

Lemma stage_unix_keeps (st : DirState) : P (dirs st) → P (dirs (stage_unix w st)).
Proof.
  intros Hst. unfold stage_unix.
  destruct (negb (String.eqb (platform w) "win32")); [|done].
  apply (fold_left_invariant (fun s => P (dirs s))).
  - destruct (process_env w "USER") as [u|];
      [destruct (truthy (Some u) && _)|];
      destruct (process_env w "SUDO_USER") as [u'|];
      try destruct (truthy (Some u')); auto using addHomeDir_keeps.
  - intros. by apply dirs_add_keeps.
Qed.

Lemma stage_users_keeps (st : DirState) : P (dirs st) → P (dirs (stage_users w st)).
Proof.
  intros Hst. unfold stage_users.
  apply (fold_left_invariant (fun s => P (dirs s))); [done|].
  intros s baseDir _ Hs. destruct (readdirSync w baseDir) as [entries|]; [|done].
  apply (fold_left_invariant (fun s => P (dirs s))); [done|].
  intros s' entry _ Hs'. destruct (negb (snd entry)); auto using addHomeDir_keeps.
Qed.

End CacheDirectories.

Lemma set_add_NoDup (x : string) (l : list string) : NoDup l → NoDup (set_add x l).
Proof.
  intros Hl. unfold set_add. case_decide; [done|].
  apply NoDup_app. repeat split; [done| |apply NoDup_singleton].
  intros y Hy Hyx%list_elem_of_singleton. by subst.
Qed.

Lemma set_add_grows (x y : string) (l : list string) : y ∈ l → y ∈ set_add x l.
Proof. intros Hy. unfold set_add. case_decide; [done|]. apply elem_of_app. by left. Qed.

Lemma set_add_elem (x : string) (l : list string) : x ∈ set_add x l.
Proof.
  unfold set_add. case_decide; [done|]. apply elem_of_app. right. left.
Qed.

(** X4.  The list of cache directories names no directory twice. *)
Theorem getBrowserCacheDirectories_NoDup (w : World) :
  NoDup (getBrowserCacheDirectories w).
Proof.
  rewrite getBrowserCacheDirectories_stages.
  assert (Hkept : kept_by_dirs NoDup) by (intros l d; apply set_add_NoDup).
  apply add_path_list_keeps, stage_users_keeps, stage_unix_keeps, stage_homes_keeps,
    add_path_list_keeps; try done.
  apply NoDup_nil_2.
Qed.

Lemma add_path_list_adds (w : World) (name v e : string) (st : DirState) :
  process_env w name = Some v → e ∈ split (path_delimiter w) v → e ≠ EmptyString →
  e ∈ dirs (add_path_list w name st).
Proof.
  intros Hv He Hne. unfold add_path_list. rewrite Hv.
  assert (Htruthy : ∀ x : string, x ≠ EmptyString → truthy (Some x) = true).
  { intros x Hx. unfold truthy. by destruct (String.eqb_spec x EmptyString). }
  assert (Hv_ne : v ≠ EmptyString).
  { intros ->. simpl in He. apply list_elem_of_singleton in He. done. }
  rewrite (Htruthy v Hv_ne).
  apply (fold_left_reaches (fun s => e ∈ dirs s) _ _ e).
  - apply list_elem_of_filter. auto.
  - intros s. apply set_add_elem.
  - intros s y Hs. by apply set_add_grows.
Qed.

(** X5.  Every non-empty component of [PLAYWRIGHT_BROWSERS_PATH] and of
    [PDF_EXTRA_BROWSER_PATHS] is one of the cache directories searched. *)
Theorem cache_directories_from_environment (w : World) (name v e : string) :
  name = "PLAYWRIGHT_BROWSERS_PATH"%string ∨ name = "PDF_EXTRA_BROWSER_PATHS"%string →
  process_env w name = Some v →
  e ∈ split (path_delimiter w) v → e ≠ EmptyString →
  e ∈ getBrowserCacheDirectories w.
Proof.
  intros Hname Hv He Hne. rewrite getBrowserCacheDirectories_stages.
  assert (Hkept : kept_by_dirs (fun l => e ∈ l)) by (intros l d; apply set_add_grows).
  destruct Hname as [->| ->].
  - apply add_path_list_keeps, stage_users_keeps, stage_unix_keeps, stage_homes_keeps;
      try done.
    by eapply add_path_list_adds.
  - by eapply add_path_list_adds.
Qed.

Lemma cache_directories_from_environment_witness :
  "/srv/browsers"%string ∈
    getBrowserCacheDirectories
      (Scenario.linux {[ "PDF_EXTRA_BROWSER_PATHS"%string := "/opt/pw::/srv/browsers"%string ]}
                      ∅ ∅ None).
Proof.
  apply (cache_directories_from_environment _ "PDF_EXTRA_BROWSER_PATHS"
           "/opt/pw::/srv/browsers" "/srv/browsers").
  - by right.
  - reflexivity.
  - apply list_elem_of_In. vm_compute. right. right. left. reflexivity.
  - discriminate.
Defined.

(** X6.  On a platform other than Windows the cache directories of the
    users [kimi], [ubuntu], [sandbox], [user] and [app] are always
    searched. *)
Theorem cache_directories_of_sandbox_users (w : World) (user : string) :
  platform w ≠ "win32"%string → user ∈ sandbox_users →
  ("/home/" +:+ user +:+ "/.cache/ms-playwright")%string ∈ getBrowserCacheDirectories w.
Proof.
  intros Hplatform Huser. rewrite getBrowserCacheDirectories_stages.
  set (d := ("/home/" +:+ user +:+ "/.cache/ms-playwright")%string).
  assert (Hkept : kept_by_dirs (fun l => d ∈ l)) by (intros l x; apply set_add_grows).
  apply add_path_list_keeps, stage_users_keeps; try done.
  unfold stage_unix.
  destruct (String.eqb_spec (platform w) "win32") as [?|_]; [done|]. cbn [negb].
  apply (fold_left_reaches (fun s => d ∈ dirs s) _ _ user); [done| |].
  - intros s. apply set_add_elem.
  - intros s y Hs. by apply set_add_grows.
Qed.

Lemma cache_directories_of_sandbox_users_witness :
  "/home/ubuntu/.cache/ms-playwright"%string ∈
    getBrowserCacheDirectories Scenario.stale_cache.
Proof.
  apply (cache_directories_of_sandbox_users Scenario.stale_cache "ubuntu").
  - discriminate.
  - right. left.
Defined.

(** ** [collectCacheExecutables], [collectSystemBrowsers] *)

Lemma cache_entry_origin (w : World) (cacheDir : string) (e : CacheEntry) :
  e ∈ collectCacheExecutables w cacheDir →
  existsSync w (entry_path e) = true ∧
  ∃ entries entry stats,
    readdirSync w cacheDir = Some entries ∧
    entry ∈ map fst entries ∧
    statSync w (path_join w [cacheDir; entry]) = Some stats ∧
    isDirectory stats = true ∧
    test_any_ci ["chromium"; "chrome"]%string entry = true ∧
    entry_revision e = extractRevisionFromPath (Some entry) ∧
    entry_path e ∈ getExecutableCandidates w (path_join w [cacheDir; entry]).
Proof.
  unfold collectCacheExecutables.
  destruct (negb (truthy (Some cacheDir))); [by intros ?%elem_of_nil|].
  destruct (readdirSync w cacheDir) as [entries|]; [|by intros ?%elem_of_nil].
  intros He. apply list_elem_of_In, in_flat_map in He as (entry & Hentry & He).
  destruct (statSync w (path_join w [cacheDir; entry])) as [stats|] eqn:Hstat; [|done].
  destruct (isDirectory stats) eqn:Hdir; [|done].
  destruct (test_any_ci ["chromium"; "chrome"]%string entry) eqn:Hname; [|done].
  simpl in He. apply in_map_iff in He as (candidate & <- & Hcandidate).
  apply list_elem_of_In in Hcandidate. simpl. split.
  - unfold getExecutableCandidates in Hcandidate.
    by apply list_elem_of_filter in Hcandidate as [? _].
  - exists entries, entry, stats. repeat split; try done. by apply list_elem_of_In.
Qed.

(** X7.  Every executable [collectCacheExecutables] reports for a cache
    directory exists, and lies under an entry of that directory which is a
    directory, has [chromium] or [chrome] in its name, and whose name
    gives the revision reported with it. *)
Theorem collectCacheExecutables_sound (w : World) (cacheDir : string) (e : CacheEntry) :
  e ∈ collectCacheExecutables w cacheDir →
  existsSync w (entry_path e) = true ∧
  ∃ entries entry stats,
    readdirSync w cacheDir = Some entries ∧
    entry ∈ map fst entries ∧
    statSync w (path_join w [cacheDir; entry]) = Some stats ∧
    isDirectory stats = true ∧
    test_any_ci ["chromium"; "chrome"]%string entry = true ∧
    entry_revision e = extractRevisionFromPath (Some entry) ∧
    entry_path e ∈ getExecutableCandidates w (path_join w [cacheDir; entry]).
Proof. apply cache_entry_origin. Qed.

Lemma collectCacheExecutables_sound_witness :
  existsSync Scenario.stale_cache (Scenario.chrome_of "chromium-1155") = true.
Proof.
  apply (collectCacheExecutables_sound Scenario.stale_cache Scenario.cache
           {| entry_path := Scenario.chrome_of "chromium-1155";
              entry_revision := Some 1155 |}).
  apply list_elem_of_In. vm_compute. right. left. reflexivity.
Defined.

(** X8.  A cache directory that cannot be listed, and the empty path,
    contribute no executable; neither does an entry that is not a
    directory or whose name has neither [chromium] nor [chrome] in it. *)
Theorem collectCacheExecutables_skips (w : World) (cacheDir : string) :
  (readdirSync w cacheDir = None → collectCacheExecutables w cacheDir = []) ∧
  (∀ entries,
     readdirSync w cacheDir = Some entries →
     Forall (fun entry =>
               match statSync w (path_join w [cacheDir; entry]) with
               | Some stats =>
                   isDirectory stats = false ∨
                   test_any_ci ["chromium"; "chrome"]%string entry = false
               | None => True
               end) (map fst entries) →
     collectCacheExecutables w cacheDir = []).
Proof.
  unfold collectCacheExecutables. split.
  - intros ->. by destruct (negb (truthy (Some cacheDir))).
  - intros entries -> Hall. destruct (negb (truthy (Some cacheDir))); [done|].
    induction Hall as [|entry rest Hentry _ IH]; [done|].
    simpl. rewrite IH.
    destruct (statSync w (path_join w [cacheDir; entry])) as [stats|]; [|done].
    destruct Hentry as [-> | Hname]; [done|].
    destruct (isDirectory stats); [|done]. by rewrite Hname.
Qed.

Lemma collectCacheExecutables_skips_witness :
  collectCacheExecutables Scenario.stale_cache "/home/nobody/.cache/ms-playwright" = [].
Proof.
  apply (collectCacheExecutables_skips Scenario.stale_cache
           "/home/nobody/.cache/ms-playwright").
  vm_compute. reflexivity.
Defined.

(** X9.  No path [collectSystemBrowsers] reports is empty; on Linux each
    of the fixed locations is reported exactly when it is executable, and
    elsewhere none of them is looked at. *)
Theorem collectSystemBrowsers_paths (w : World) :
  Forall (fun p => p ≠ EmptyString) (collectSystemBrowsers w) ∧
  (platform w = "linux"%string →
   ∀ p, p ∈ directPaths → accessSync_X_OK w p = true → p ∈ collectSystemBrowsers w) ∧
  (platform w ≠ "linux"%string →
   ∀ p, p ∈ collectSystemBrowsers w →
        ∃ cmd, cmd ∈ commands ∧ resolveSystemCommand w cmd = Some p).
Proof.
  unfold collectSystemBrowsers. split; [|split].
  - apply Forall_app. split.
    + destruct (String.eqb (platform w) "linux"); [|constructor].
      apply Forall_forall. intros p [_ Hp]%list_elem_of_filter.
      unfold directPaths in Hp. intros ->.
      apply list_elem_of_In in Hp. simpl in Hp.
      repeat (destruct Hp as [Hp|Hp]; [discriminate Hp|]). done.
    + apply Forall_forall. intros p Hp.
      apply list_elem_of_In, in_flat_map in Hp as (cmd & _ & Hp).
      destruct (resolveSystemCommand w cmd) as [resolved|]; [|done].
      unfold truthy in Hp.
      destruct (String.eqb_spec resolved EmptyString); simpl in Hp; [done|].
      destruct Hp as [<-|[]]. done.
  - intros Hlinux p Hp Hx. rewrite Hlinux. simpl.
    apply elem_of_app. left. by apply list_elem_of_filter.
  - intros Hother p Hp.
    destruct (String.eqb_spec (platform w) "linux") as [?|_]; [done|].
    apply elem_of_app in Hp as [Hp|Hp]; [by apply elem_of_nil in Hp|].
    apply list_elem_of_In, in_flat_map in Hp as (cmd & Hcmd & Hp).
    exists cmd. split; [by apply list_elem_of_In|].
    destruct (resolveSystemCommand w cmd) as [resolved|]; [|done].
    destruct (truthy (Some resolved)); [|done]. destruct Hp as [<-|[]]. done.
Qed.

(** ** The candidates and their ranking, continued *)

(** A property of candidates holds of all that are collected when it holds
    of whatever each of the three sources can hand over. *)
Lemma collectCandidates_Forall (w : World) (P : Candidate → Prop) :
  (∀ p, p ≠ EmptyString → accessSync_X_OK w p = true →
        P {| path := p; revision := None; source := "env" |}) →
  (∀ d e, d ∈ getBrowserCacheDirectories w → e ∈ collectCacheExecutables w d →
          accessSync_X_OK w (entry_path e) = true →
          P {| path := entry_path e; revision := entry_revision e; source := "cache" |}) →
  (∀ p, p ≠ EmptyString → accessSync_X_OK w p = true →
        P {| path := p; revision := None; source := "system" |}) →
  Forall P (collectCandidates w).
Proof.
  intros Henv Hcache Hsystem.
  enough (found_invariant P
            (add_system_candidates w
               (add_cache_candidates w
                  (add_env_candidates w {| seen := ∅; candidates := [] |}))))
    as [_ Hall] by exact Hall.
  unfold add_system_candidates.
  apply fold_left_invariant; [|intros; apply addCandidate_invariant; auto].
  unfold add_cache_candidates.
  apply fold_left_invariant.
  - unfold add_env_candidates.
    apply fold_left_invariant; [apply found_invariant_start|].
    intros st name _ Hst. destruct (process_env w name) as [v|]; [|done].
    destruct (truthy (Some v)); [|done]. apply addCandidate_invariant; auto.
  - intros st dir Hdir Hst.
    apply fold_left_invariant; [done|].
    intros st' entry Hentry Hst'. apply addCandidate_invariant; eauto.
Qed.

Lemma addCandidate_distinct (w : World) (st : Found) (p : string) (r : option Z)
    (s : string) :
  distinct_paths st → distinct_paths (addCandidate w st p r s).
Proof.
  intros [Hseen Hnodup].
  destruct (addCandidate_cases w st p r s) as [->|(Hne & Hfresh & Hx & ->)]; [done|].
  split; simpl.
  - intros q. rewrite elem_of_union, elem_of_singleton, Hseen. split.
    + intros [->|(c & Hc & Hq)].
      * eexists. split; [apply elem_of_app; right; left|done].
      * exists c. split; [apply elem_of_app; by left|done].
    + intros (c & Hc & Hq). apply elem_of_app in Hc as [Hc|Hc].
      * right. by exists c.
      * apply list_elem_of_singleton in Hc as ->. by left.
  - rewrite fmap_app. apply NoDup_app. split; [done|]. split; [|apply NoDup_singleton].
    intros q Hq Hqp%list_elem_of_singleton. simpl in Hqp. subst q.
    apply Hfresh, Hseen. apply list_elem_of_fmap in Hq as (c & -> & Hc). by exists c.
Qed.

(** X10.  No two candidates have the same path: a path reached through
    several sources is recorded once, for the first of them. *)
Theorem collectCandidates_distinct_paths (w : World) :
  NoDup (path <$> collectCandidates w).
Proof.
  enough (distinct_paths
            (add_system_candidates w
               (add_cache_candidates w
                  (add_env_candidates w {| seen := ∅; candidates := [] |}))))
    as [_ Hnodup] by exact Hnodup.
  unfold add_system_candidates.
  apply fold_left_invariant; [|intros; by apply addCandidate_distinct].
  unfold add_cache_candidates.
  apply fold_left_invariant.
  - unfold add_env_candidates. apply fold_left_invariant.
    + split; [|apply NoDup_nil_2]. intros p. simpl. split; [set_solver|].
      intros (c & Hc & _). by apply elem_of_nil in Hc.
    + intros st name _ Hst. destruct (process_env w name) as [v|]; [|done].
      destruct (truthy (Some v)); [|done]. by apply addCandidate_distinct.
  - intros st dir _ Hst. apply fold_left_invariant; [done|].
    intros. by apply addCandidate_distinct.
Qed.

Lemma collectCandidates_well_sourced (w : World) :
  Forall well_sourced (collectCandidates w).
Proof.
  apply collectCandidates_Forall.
  - intros p _ _. split; [by left|]. by intros r [=].
  - intros d e _ He _. split; [right; by left|]. simpl. intros r Hr. split; [done|].
    apply cache_entry_origin in He as (_ & _ & entry & _ & _ & _ & _ & _ & _ & Hrev & _).
    rewrite Hrev in Hr. by apply revision_of_path_nonneg in Hr.
  - intros p _ _. split; [right; by right|]. by intros r [=].
Qed.

(** X11.  Every candidate comes from the environment, a cache or a system
    location; only a candidate from a cache carries a revision, and that
    revision is not negative. *)
Theorem candidates_are_well_sourced (w : World) (c : Candidate) :
  c ∈ collectCandidates w →
  (source c = "env"%string ∨ source c = "cache"%string ∨ source c = "system"%string) ∧
  ∀ r, revision c = Some r → source c = "cache"%string ∧ 0 ≤ r.
Proof.
  intros Hc. pose proof (collectCandidates_well_sourced w) as Hall.
  by eapply Forall_forall in Hall.
Qed.

Lemma candidates_are_well_sourced_witness :
  (source (Scenario.cache_candidate "chromium-1148" 1148) = "env"%string ∨
   source (Scenario.cache_candidate "chromium-1148" 1148) = "cache"%string ∨
   source (Scenario.cache_candidate "chromium-1148" 1148) = "system"%string) ∧
  ∀ r, revision (Scenario.cache_candidate "chromium-1148" 1148) = Some r →
       source (Scenario.cache_candidate "chromium-1148" 1148) = "cache"%string ∧ 0 ≤ r.
Proof.
  apply (candidates_are_well_sourced Scenario.stale_cache).
  apply list_elem_of_In. vm_compute. right. left. reflexivity.
Defined.

(** X12.  The candidate returned has the least score: no candidate is
    nearer to the expected revision, and when none is returned there was
    no candidate at all. *)
Theorem findExistingChromium_minimises_score (w : World) (R : option Z) :
  match findExistingChromium w R with
  | Some selected =>
      selected ∈ collectCandidates w ∧
      ∀ c, c ∈ collectCandidates w → score R selected ≤ score R c
  | None => collectCandidates w = []
  end.
Proof.
  destruct (findExistingChromium w R) as [selected|] eqn:Hsel.
  - apply findExistingChromium_least in Hsel as [Hin Hleast]. split; [done|].
    intros c Hc. specialize (Hleast c Hc). apply compare_before in Hleast. lia.
  - by apply findExistingChromium_None in Hsel.
Qed.

(** X13.  When the expected revision is unknown, the candidate returned
    carries the highest revision found in the caches. *)
Theorem unknown_expectation_prefers_highest_revision (w : World)
    (selected c : Candidate) (r : Z) :
  findExistingChromium w None = Some selected →
  c ∈ collectCandidates w → revision c = Some r →
  ∃ rs, revision selected = Some rs ∧ r ≤ rs.
Proof.
  intros Hsel Hc Hr.
  pose proof (collectCandidates_well_sourced w) as Hall.
  eapply Forall_forall in Hall as [_ Hrev]; [|exact Hc].
  destruct (Hrev r Hr) as [_ Hnonneg].
  apply findExistingChromium_least in Hsel as [_ Hleast].
  specialize (Hleast c Hc). apply compare_before in Hleast.
  unfold score, revision_or_0 in Hleast. rewrite Hr in Hleast.
  destruct (revision selected) as [rs|].
  - exists rs. split; [done|]. lia.
  - unfold MAX_SAFE_INTEGER in Hleast. lia.
Qed.

Lemma unknown_expectation_prefers_highest_revision_witness :
  ∃ rs, revision (Scenario.cache_candidate "chromium-1155" 1155) = Some rs ∧ 1148 ≤ rs.
Proof.
  apply (unknown_expectation_prefers_highest_revision Scenario.stale_cache
           (Scenario.cache_candidate "chromium-1155" 1155)
           (Scenario.cache_candidate "chromium-1148" 1148) 1148).
  - vm_compute. reflexivity.
  - apply list_elem_of_In. vm_compute. right. left. reflexivity.
  - reflexivity.
Defined.

Lemma array_sort_unordered {A : Type} (cmp : A → A → Z) (l : list A) :
  (∀ a b, a ∈ l → b ∈ l → cmp a b ≤ 0) → array_sort cmp l = l.
Proof.
  induction l as [|x l IH]; intros Hall; [done|]. simpl.
  rewrite IH by (intros a b Ha Hb; apply Hall; by right).
  destruct l as [|y l]; [done|]. simpl.
  destruct (Z.leb_spec (cmp x y) 0) as [_|Hgt]; [done|].
  assert (cmp x y ≤ 0) by (apply Hall; [left|right; left]). lia.
Qed.

Lemma addCandidate_head (w : World) (st : Found) (p : string) (r : option Z)
    (s : string) (c : Candidate) :
  head (candidates st) = Some c → head (candidates (addCandidate w st p r s)) = Some c.
Proof.
  intros Hc. destruct (addCandidate_cases w st p r s) as [->|(_ & _ & _ & ->)]; [done|].
  simpl. destruct (candidates st); [done|]. exact Hc.
Qed.

Lemma first_override_is_first_candidate (w : World) (p : string) :
  process_env w "PLAYWRIGHT_CHROMIUM_PATH" = Some p →
  accessSync_X_OK w p = true →
  head (collectCandidates w) = Some {| path := p; revision := None; source := "env" |}.
Proof.
  intros Hp Hx.
  pose proof (existsSync_nonempty w p (accessSync_existsSync w p Hx)) as Hne.
  unfold collectCandidates, add_system_candidates.
  apply (fold_left_invariant (fun st => head (candidates st) = Some _));
    [|intros; by apply addCandidate_head].
  unfold add_cache_candidates.
  apply (fold_left_invariant (fun st => head (candidates st) = Some _)).
  - unfold add_env_candidates, env_overrides.
    change (fold_left ?f (?x :: ?l) ?a) with (fold_left f l (f a x)).
    apply (fold_left_invariant (fun st => head (candidates st) = Some _)).
    + rewrite Hp. unfold truthy, addCandidate, truthy.
      destruct (String.eqb_spec p EmptyString); [done|]. simpl.
      rewrite Hx. reflexivity.
    + intros st name _ Hst. destruct (process_env w name) as [v|]; [|done].
      destruct (truthy (Some v)); [|done]. by apply addCandidate_head.
  - intros st dir _ Hst.
    apply (fold_left_invariant (fun st => head (candidates st) = Some _)); [done|].
    intros. by apply addCandidate_head.
Qed.

(** X14.  When no candidate carries a revision, the candidates keep the
    order in which they were collected, so an executable named by
    [PLAYWRIGHT_CHROMIUM_PATH] is the one returned, whatever the expected
    revision. *)
Theorem override_wins_without_revisions (w : World) (R : option Z) (p : string) :
  process_env w "PLAYWRIGHT_CHROMIUM_PATH" = Some p →
  accessSync_X_OK w p = true →
  (∀ c, c ∈ collectCandidates w → revision c = None) →
  sortedCandidates w R = collectCandidates w ∧
  findExistingChromium w R = Some {| path := p; revision := None; source := "env" |}.
Proof.
  intros Hp Hx Hnone.
  assert (Hsame : sortedCandidates w R = collectCandidates w).
  { apply array_sort_unordered. intros a b Ha Hb. apply compare_before. right.
    unfold score, revision_or_0. rewrite (Hnone a Ha), (Hnone b Hb).
    by destruct R. }
  split; [done|].
  rewrite findExistingChromium_head, Hsame. by apply first_override_is_first_candidate.
Qed.

Lemma override_wins_without_revisions_witness :
  findExistingChromium
    (Scenario.linux {[ "PLAYWRIGHT_CHROMIUM_PATH"%string := "/opt/chrome/chrome"%string ]}
                    (Scenario.cache_with []) ∅ None)
    (Some 1150) =
  Some {| path := "/opt/chrome/chrome"; revision := None; source := "env" |}.
Proof.
  apply (override_wins_without_revisions
           (Scenario.linux {[ "PLAYWRIGHT_CHROMIUM_PATH"%string := "/opt/chrome/chrome"%string ]}
                           (Scenario.cache_with []) ∅ None)
           (Some 1150) "/opt/chrome/chrome").
  - reflexivity.
  - vm_compute. reflexivity.
  - intros c Hc. apply list_elem_of_In in Hc. vm_compute in Hc.
    destruct Hc as [<-|[]]. reflexivity.
Defined.

(** ** [resolveChromium], continued *)

(** What the check of a path can answer and which calls it makes. *)
Lemma check_path_cases (w : World) (e : option string) :
  (∃ p, e = Some p ∧ existsSync w p = true ∧ check_path w e = (true, [CallExistsSync p])) ∨
  (∃ log, check_path w e = (false, log) ∧ (CallSpawnInstaller ∉ log) ∧
          ∀ p, e = Some p → existsSync w p = false).
Proof.
  destruct e as [p|].
  - destruct (existsSync w p) eqn:Hex.
    + left. exists p. split; [done|]. split; [done|]. by apply check_path_present.
    + right. destruct (check_path_absent w (Some p)) as (log & Hlog & Hno).
      { by intros ? [= <-]. }
      exists log. split; [done|]. split; [done|]. by intros ? [= <-].
  - right. exists []. split; [done|]. split; [apply not_elem_of_nil|done].
Qed.

Lemma no_permission_no_installer (w : World) (options : Options) :
  allowInstall options = false →
  (CallSpawnInstaller ∉ calls (resolveChromium w options)) ∧
  world_after (resolveChromium w options) = w ∧
  result (resolveChromium w options) ≠ inl INSTALL_FAILED.
Proof.
  intros Hallow. unfold resolveChromium.
  destruct (chromium_of w options) as [chromium|]; simpl;
    [|split; [apply not_elem_of_nil|done]].
  unfold resolveChromium_with. rewrite Hallow.
  assert (Hsnoc : ∀ (log : list Call) (c : Call),
            CallSpawnInstaller ∉ log → c ≠ CallSpawnInstaller →
            CallSpawnInstaller ∉ log ++ [c]).
  { intros log c Hlog Hc Hin. apply elem_of_app in Hin as [Hin|Hin]; [done|].
    apply list_elem_of_singleton in Hin. done. }
  destruct (check_path_cases w (getDefaultChromiumPath chromium))
    as [(p & _ & _ & ->)|(log & -> & Hlog & _)]; simpl.
  - split; [|done]. intros Hin%list_elem_of_singleton. discriminate.
  - destruct (findExistingChromium w _); simpl; (split; [by apply Hsnoc|done]).
Qed.

(** X15.  Without the permission to install, [resolveChromium] never
    runs the installer, leaves the world as it found it, and does not
    throw the installation error. *)
Theorem resolveChromium_respects_permission (w : World) (options : Options) :
  allowInstall options = false →
  (CallSpawnInstaller ∉ calls (resolveChromium w options)) ∧
  world_after (resolveChromium w options) = w ∧
  result (resolveChromium w options) ≠ inl INSTALL_FAILED.
Proof. apply no_permission_no_installer. Qed.

Lemma resolveChromium_respects_permission_witness :
  (CallSpawnInstaller ∉
    calls (resolveChromium (Scenario.nothing_installed (Some 0) ∅)
             {| opt_chromium := Some (Scenario.playwright_at "chromium-1150");
                allowInstall := false |})) ∧
  world_after (resolveChromium (Scenario.nothing_installed (Some 0) ∅)
                 {| opt_chromium := Some (Scenario.playwright_at "chromium-1150");
                    allowInstall := false |}) = Scenario.nothing_installed (Some 0) ∅ ∧
  result (resolveChromium (Scenario.nothing_installed (Some 0) ∅)
            {| opt_chromium := Some (Scenario.playwright_at "chromium-1150");
               allowInstall := false |}) ≠ inl INSTALL_FAILED.
Proof.
  apply (resolveChromium_respects_permission (Scenario.nothing_installed (Some 0) ∅)).
  reflexivity.
Defined.

Lemma resolution_holds_of_result (w : World) (options : Options) (r : Resolution) :
  result (resolveChromium w options) = inr r →
  resolution_holds w (resolveChromium w options) (allowInstall options) r.
Proof.
  unfold resolveChromium.
  destruct (chromium_of w options) as [chromium|]; [|done].
  unfold resolveChromium_with.
  destruct (check_path_cases w (getDefaultChromiumPath chromium))
    as [(p & Hp & Hex & ->)|(log & -> & Hlog & Habsent)].
  - simpl. intros [= <-]. unfold resolution_holds. simpl. rewrite Hp. done.
  - destruct (findExistingChromium w _) as [found|] eqn:Hfound.
    + simpl. intros [= <-]. unfold resolution_holds. simpl.
      apply findExistingChromium_least in Hfound as [Hin _].
      pose proof (collectCandidates_usable w) as Husable.
      eapply Forall_forall in Husable as (_ & Hx & _); [|exact Hin].
      pose proof (collectCandidates_well_sourced w) as Hsourced.
      eapply Forall_forall in Hsourced as [Hsource _]; [|exact Hin].
      done.
    + apply findExistingChromium_None in Hfound.
      destruct (allowInstall options).
      * cbn [negb].
        assert (Hst : fst (spawnSync_install w) = install_status w) by done.
        destruct (spawnSync_install w) as [st w'] eqn:Hspawn. simpl in Hst. subst st.
        case_bool_decide; [|done].
        destruct (check_path_cases w' (getDefaultChromiumPath chromium))
          as [(p & Hp & Hex & ->)|(log' & -> & _ & _)]; [|done].
        simpl. intros [= <-]. unfold resolution_holds. simpl. rewrite Hp. done.
      * simpl. intros [= <-]. unfold resolution_holds. simpl.
        repeat split; try done.
        destruct (getDefaultChromiumPath chromium) as [p|] eqn:Hp; [|done].
        destruct (truthy (Some p)); [|done]. simpl. by apply Habsent.
Qed.

(** X16.  What [resolveChromium] returns is true of the world: with [ok]
    the path exists and with [installed] it exists after the installation;
    with [fallback] the path is executable and the source is one of the
    three; [missing] is returned only without the permission to install,
    when no candidate exists and the path reported does not exist; the
    world is changed only on the way to [installed], and [isFallback] is
    set exactly for [fallback]. *)
Theorem resolveChromium_result_holds (w : World) (options : Options) (r : Resolution) :
  result (resolveChromium w options) = inr r →
  resolution_holds w (resolveChromium w options) (allowInstall options) r.
Proof. apply resolution_holds_of_result. Qed.

Lemma resolveChromium_result_holds_witness :
  resolution_holds Scenario.stale_cache
    (resolveChromium Scenario.stale_cache
       {| opt_chromium := Some (Scenario.playwright_at "chromium-1150");
          allowInstall := true |})
    true
    {| status := fallback;
       executablePath := Scenario.chrome_of "chromium-1148";
       resolved_revision := Some 1148;
       expectedRevision := Some 1150;
       isFallback := true;
       resolved_source := "cache" |}.
Proof.
  apply (resolveChromium_result_holds Scenario.stale_cache
           {| opt_chromium := Some (Scenario.playwright_at "chromium-1150");
              allowInstall := true |}).
  vm_compute. reflexivity.
Defined.

(** X17.  The installer is the last resort: when [resolveChromium] runs
    it, installation was permitted, the expected path did not exist, no
    candidate was found, the search for candidates came before it, and it
    is run once. *)
Theorem installer_is_last_resort (w : World) (options : Options) :
  CallSpawnInstaller ∈ calls (resolveChromium w options) →
  allowInstall options = true ∧
  collectCandidates w = [] ∧
  world_after (resolveChromium w options) = snd (spawnSync_install w) ∧
  ∃ chromium before after,
    chromium_of w options = Some chromium ∧
    (∀ p, getDefaultChromiumPath chromium = Some p → existsSync w p = false) ∧
    calls (resolveChromium w options) =
      before ++
      [CallFindExistingChromium (extractRevisionFromPath (getDefaultChromiumPath chromium));
       CallSpawnInstaller] ++ after ∧
    (CallSpawnInstaller ∉ before) ∧ (CallSpawnInstaller ∉ after).
Proof.
  unfold resolveChromium.
  destruct (chromium_of w options) as [chromium|]; [|by intros ?%elem_of_nil].
  unfold resolveChromium_with.
  assert (Hsnoc : ∀ (log : list Call) (c : Call),
            CallSpawnInstaller ∉ log → c ≠ CallSpawnInstaller →
            CallSpawnInstaller ∉ log ++ [c]).
  { intros log c Hlog Hc Hin. apply elem_of_app in Hin as [Hin|Hin]; [done|].
    apply list_elem_of_singleton in Hin. done. }
  destruct (check_path_cases w (getDefaultChromiumPath chromium))
    as [(p & Hp & Hex & ->)|(log & -> & Hlog & Habsent)].
  - simpl. intros Hin%list_elem_of_singleton. discriminate.
  - destruct (findExistingChromium w _) as [found|] eqn:Hfound.
    + simpl. intros Hin. exfalso. revert Hin. by apply Hsnoc.
    + apply findExistingChromium_None in Hfound.
      destruct (allowInstall options).
      * cbn [negb].
        assert (Hst : fst (spawnSync_install w) = install_status w) by done.
        destruct (spawnSync_install w) as [st w'] eqn:Hspawn. simpl in Hst. subst st.
        intros _. split; [done|]. split; [done|].
        case_bool_decide.
        -- destruct (check_path_cases w' (getDefaultChromiumPath chromium))
             as [(p & Hp & Hex & ->)|(log' & -> & Hlog' & _)]; simpl.
           ++ split; [done|]. exists chromium, log, [CallExistsSync p].
              split; [done|]. split; [done|]. rewrite <- !app_assoc. simpl.
              split; [done|]. split; [done|].
              intros Hin%list_elem_of_singleton. discriminate.
           ++ split; [done|]. exists chromium, log, log'.
              split; [done|]. split; [done|]. rewrite <- !app_assoc. simpl. done.
        -- simpl. split; [done|]. exists chromium, log, [].
           split; [done|]. split; [done|]. rewrite <- !app_assoc. simpl.
           split; [done|]. split; [done|]. apply not_elem_of_nil.
      * simpl. intros Hin. exfalso. revert Hin. by apply Hsnoc.
Qed.

Lemma installer_is_last_resort_witness :
  collectCandidates (Scenario.nothing_installed (Some 1) ∅) = [].
Proof.
  apply (installer_is_last_resort (Scenario.nothing_installed (Some 1) ∅)
           {| opt_chromium := Some (Scenario.playwright_at "chromium-1150");
              allowInstall := true |}).
  apply list_elem_of_In. vm_compute. right. right. left. reflexivity.
Defined.

(** ** [loadPlaywright] *)

Lemma loadPlaywright_unfold (w : World) :
  loadPlaywright w =
    match require_playwright w None with
    | Some m => Some m
    | None => search_roots w (playwright_roots w)
    end.
Proof. reflexivity. Qed.

Lemma search_roots_sound (w : World) (bases : list string) (m : Playwright) :
  search_roots w bases = Some m →
  ∃ base, base ∈ bases ∧ base ≠ EmptyString ∧
          existsSync w (path_join w [base; "playwright"; "package.json"]%string) = true ∧
          require_playwright w
            (Some (path_join w [base; "playwright"; "package.json"]%string)) = Some m.
Proof.
  induction bases as [|base rest IH]; [done|].
  change (search_roots w (base :: rest)) with
    (if negb (truthy (Some base)) then search_roots w rest
     else if negb (existsSync w (path_join w [base; "playwright"; "package.json"]%string))
          then search_roots w rest
          else match require_playwright w
                       (Some (path_join w [base; "playwright"; "package.json"]%string)) with
               | Some m => Some m
               | None => search_roots w rest
               end).
  assert (Hlater : search_roots w rest = Some m →
            ∃ b, b ∈ base :: rest ∧ b ≠ EmptyString ∧
                 existsSync w (path_join w [b; "playwright"; "package.json"]%string) = true ∧
                 require_playwright w
                   (Some (path_join w [b; "playwright"; "package.json"]%string)) = Some m).
  { intros (b & Hb & Hrest)%IH. exists b. split; [by right|done]. }
  unfold truthy.
  destruct (String.eqb_spec base EmptyString) as [->|Hne]; simpl; [exact Hlater|].
  destruct (existsSync w _) eqn:Hex; simpl; [|exact Hlater].
  destruct (require_playwright w (Some _)) as [m'|] eqn:Hreq; [|exact Hlater].
  intros [= <-]. exists base. split; [left|done].
Qed.

(** X18.  A module [loadPlaywright] returns was loaded by [require],
    either plainly or from a [playwright/package.json] that exists under
    one of the search roots; when no [require] succeeds, it throws. *)
Theorem loadPlaywright_sound (w : World) :
  (∀ m, loadPlaywright w = Some m →
     require_playwright w None = Some m ∨
     (require_playwright w None = None ∧
      ∃ base, base ∈ playwright_roots w ∧ base ≠ EmptyString ∧
        existsSync w (path_join w [base; "playwright"; "package.json"]%string) = true ∧
        require_playwright w
          (Some (path_join w [base; "playwright"; "package.json"]%string)) = Some m)) ∧
  ((∀ q, require_playwright w q = None) → loadPlaywright w = None).
Proof.
  rewrite loadPlaywright_unfold. split.
  - intros m. destruct (require_playwright w None) as [m'|]; [by left|].
    intros Hm. right. split; [done|]. by apply search_roots_sound.
  - intros Hnone. rewrite Hnone.
    destruct (search_roots w (playwright_roots w)) as [m|] eqn:Hm; [|done].
    apply search_roots_sound in Hm as (base & _ & _ & _ & Hreq).
    by rewrite Hnone in Hreq.
Qed.

Lemma playwright_roots_head (w : World) (p : string) :
  process_env w "PLAYWRIGHT_PATH" = Some p → p ≠ EmptyString →
  head (playwright_roots w) = Some p.
Proof.
  intros Hp Hne. unfold playwright_roots. rewrite Hp.
  assert (Htruthy : truthy (Some p) = true).
  { unfold truthy. by destruct (String.eqb_spec p EmptyString). }
  rewrite Htruthy.
  assert (Hadd : ∀ (x : string) (l : list string),
            head l = Some p → head (set_add x l) = Some p).
  { intros x l Hl. unfold set_add. case_decide; [done|]. by destruct l. }
  assert (Hroots1 : ∀ np : string,
            head (fold_left (fun s e => set_add e s)
                    (filter (fun e => truthy (Some e) = true) (split (path_delimiter w) np))
                    [p]) = Some p).
  { intros np. apply (fold_left_invariant (fun l => head l = Some p)); [done|].
    intros. by apply Hadd. }
  destruct (execSync w "npm root -g") as [out|];
    [destruct (truthy (Some (trim out)))|];
    destruct (process_env w "NODE_PATH") as [np|];
    try destruct (truthy (Some np)); try apply Hadd; try apply Hroots1; done.
Qed.

(** X19.  When the plain [require] fails, the directory named by
    [PLAYWRIGHT_PATH] is tried before [NODE_PATH] and the global root of
    npm: a module that loads from it is the one returned. *)
Theorem PLAYWRIGHT_PATH_is_tried_first (w : World) (p : string) (m : Playwright) :
  require_playwright w None = None →
  process_env w "PLAYWRIGHT_PATH" = Some p → p ≠ EmptyString →
  existsSync w (path_join w [p; "playwright"; "package.json"]%string) = true →
  require_playwright w (Some (path_join w [p; "playwright"; "package.json"]%string)) = Some m →
  loadPlaywright w = Some m.
Proof.
  intros Hplain Hp Hne Hex Hreq. rewrite loadPlaywright_unfold, Hplain.
  pose proof (playwright_roots_head w p Hp Hne) as Hhead.
  destruct (playwright_roots w) as [|base rest]; [done|]. simpl in Hhead.
  injection Hhead as ->.
  change (search_roots w (p :: rest)) with
    (if negb (truthy (Some p)) then search_roots w rest
     else if negb (existsSync w (path_join w [p; "playwright"; "package.json"]%string))
          then search_roots w rest
          else match require_playwright w
                       (Some (path_join w [p; "playwright"; "package.json"]%string)) with
               | Some m => Some m
               | None => search_roots w rest
               end).
  unfold truthy. destruct (String.eqb_spec p EmptyString); [done|]. simpl.
  by rewrite Hex, Hreq.
Qed.

Lemma PLAYWRIGHT_PATH_is_tried_first_witness :
  loadPlaywright Scenario.relocated_playwright =
    Some {| chromium := Scenario.playwright_at "chromium-1150" |}.
Proof.
  apply (PLAYWRIGHT_PATH_is_tried_first Scenario.relocated_playwright "/opt/pw").
  - reflexivity.
  - reflexivity.
  - discriminate.
  - vm_compute. reflexivity.
  - vm_compute. reflexivity.
Defined.

(** ** The command line of the helper *)

Lemma status_line_nonempty (r : Resolution) :
  (status_name (status r) +:+ ":" +:+ executablePath r)%string ≠ EmptyString.
Proof. by destruct (status r). Qed.

(** X20.  The helper prints exactly one item and ends with code 0, 2 or
    3: 0 when a browser was resolved, 2 when the result is [missing], 3
    when the resolution threw.  Without [--json] the item is a line on
    standard output that is not empty; without [--allow-install] the
    installer is not run, and code 2 occurs only then. *)
Theorem cli_main_reports (w : World) (args : list string) :
  let outcome := resolveChromium w {| opt_chromium := None;
                                      allowInstall := bool_decide ("--allow-install"%string ∈ args) |} in
  let run := cli_main w args in
  length (printed run) = 1%nat ∧
  (exit_code run = 0 ↔ ∃ r, result outcome = inr r ∧ status r ≠ missing) ∧
  (exit_code run = 2 ↔ ∃ r, result outcome = inr r ∧ status r = missing) ∧
  (exit_code run = 3 ↔ ∃ e, result outcome = inl e) ∧
  (exit_code run = 2 → "--allow-install"%string ∉ args) ∧
  ("--allow-install"%string ∉ args → CallSpawnInstaller ∉ cli_calls run) ∧
  ("--json"%string ∉ args → ∃ line, printed run = [Stdout line] ∧ line ≠ EmptyString).
Proof.
  intros outcome run. subst run. unfold cli_main. fold outcome.
  assert (Hmissing : ∀ r, result outcome = inr r → status r = missing →
                          "--allow-install"%string ∉ args).
  { intros r Hr Hs Hin.
    pose proof (resolution_holds_of_result w _ r Hr) as Hholds.
    unfold resolution_holds in Hholds. rewrite Hs in Hholds. simpl in Hholds.
    destruct Hholds as [Hallowed _]. by apply bool_decide_eq_false in Hallowed. }
  assert (Hcalls : "--allow-install"%string ∉ args → CallSpawnInstaller ∉ calls outcome).
  { intros Hnot. apply no_permission_no_installer. simpl. by apply bool_decide_eq_false. }
  destruct (result outcome) as [e|r] eqn:Hres; simpl.
  - split; [done|]. split; [split; [done|by intros (? & ? & _)]|].
    split; [split; [done|by intros (? & ? & _)]|].
    split; [split; [by eexists|done]|]. split; [done|]. split; [done|].
    intros Hjson. rewrite bool_decide_eq_false_2 by done.
    eexists. split; [done|]. by destruct e.
  - split; [done|].
    assert (Hcode : (status r = missing ∧ match status r with missing => 2 | _ => 0 end = 2) ∨
                    (status r ≠ missing ∧ match status r with missing => 2 | _ => 0 end = 0))
      by (destruct (status r); auto).
    split; [|split; [|split; [|split; [|split]]]].
    + split.
      * intros H0. exists r. split; [done|]. destruct Hcode as [[_ ?]|[? _]]; [lia|done].
      * intros (r' & [= <-] & Hne). destruct Hcode as [[? _]|[_ ?]]; done.
    + split.
      * intros H2. exists r. split; [done|]. destruct Hcode as [[? _]|[_ ?]]; [done|lia].
      * intros (r' & [= <-] & Hs). destruct Hcode as [[_ ?]|[? _]]; done.
    + split; [|by intros (? & ?)]. destruct Hcode as [[_ ?]|[_ ?]]; lia.
    + intros H2. apply (Hmissing r eq_refl). destruct Hcode as [[? _]|[_ ?]]; [done|lia].
    + done.
    + intros Hjson. rewrite bool_decide_eq_false_2 by done.
      eexists. split; [done|]. apply status_line_nonempty.
Qed.

Example cli_main_prints_status_line :
  cli_main Scenario.relocated_playwright [] =
    {| printed := [Stdout ("ok:" +:+ Scenario.chrome_of "chromium-1150")];
       exit_code := 0;
       cli_calls := [CallExistsSync (Scenario.chrome_of "chromium-1150")] |}.
Proof. vm_compute. reflexivity. Qed.

(** * Further properties of the driver *)

(** ** The polling loop *)

Lemma check_stableCount (st : PollState) (c : Z) :
  0 ≤ stableCount st →
  0 ≤ stableCount (check st c) ≤ stableCount st + 1 ∧ lastPageCount (check st c) = c.
Proof.
  intros Hst. unfold check. destruct (Z.eqb_spec c (lastPageCount st)); simpl; lia.
Qed.

Lemma last_cons_default {A : Type} (x d : A) (l : list A) :
  default d (last (x :: l)) = default x (last l).
Proof.
  destruct l as [|y l]; [done|]. rewrite last_cons_cons.
  destruct (last (y :: l)) as [z|] eqn:Hlast; [done|].
  by apply last_None in Hlast.
Qed.

(** The loop from any state: the bounds of [stableCount], the number of
    samples taken, and the meaning of the two variables when it is left. *)
Lemma pollPagination_invariant (ticks : list Tick) :
  ∀ (st0 : PollState) (n0 : nat) (how : PollExit) (st : PollState) (n : nat),
    0 ≤ stableCount st0 ≤ 3 →
    pollPagination ticks st0 n0 = (how, st, n) →
    0 ≤ stableCount st ≤ 3 ∧
    (n0 ≤ n ≤ n0 + length ticks)%nat ∧
    stableCount st ≤ stableCount st0 + Z.of_nat (n - n0) ∧
    (how = Stabilized ↔ stableCount st = 3) ∧
    lastPageCount st =
      default (lastPageCount st0) (last (omap currentPageCount (take (n - n0) ticks))).
Proof.
  induction ticks as [|t rest IH]; intros st0 n0 how st n Hst0.
  - simpl. destruct (Z.ltb_spec (stableCount st0) 3); simpl; intros [= <- <- <-];
      rewrite Nat.sub_diag; repeat split; try done; try lia.
  - simpl. destruct (Z.ltb_spec (stableCount st0) 3) as [Hlt|Hge]; simpl.
    + destruct (Z.gtb_spec (elapsed t) maxWaitTime).
      * intros [= <- <- <-]. rewrite Nat.sub_diag.
        repeat split; try done; try lia.
      * destruct (currentPageCount t) as [c|] eqn:Hc.
        -- intros Hrun.
           destruct (check_stableCount st0 c) as [Hsc Hlast]; [lia|].
           apply IH in Hrun as (Hb & Hn & Hs & Hhow & Hl); [|lia].
           split; [done|]. split; [lia|]. split; [lia|]. split; [done|].
           replace (n - n0)%nat with (S (n - S n0)) by lia.
           rewrite firstn_cons. simpl omap. rewrite Hc.
           rewrite last_cons_default, Hl, Hlast. done.
        -- intros [= <- <- <-].
           replace (S n0 - n0)%nat with 1%nat by lia.
           simpl. rewrite Hc. simpl. repeat split; try done; try lia.
    + intros [= <- <- <-]. rewrite Nat.sub_diag.
      repeat split; try done; try lia.
Qed.

(** X21.  However the loop is left, [stableCount] lies between 0 and 3
    and reaches 3 exactly when pagination is declared stable, which takes
    at least three samples; no more samples are taken than offered, and
    [lastPageCount], the count reported, is the last count sampled (0 when
    none was). *)
Theorem pollPagination_reports_last_sample (ticks : list Tick)
    (how : PollExit) (st : PollState) (n : nat) :
  pollPagination ticks poll_start 0 = (how, st, n) →
  0 ≤ stableCount st ≤ 3 ∧
  (n ≤ length ticks)%nat ∧
  (how = Stabilized ↔ stableCount st = 3) ∧
  (how = Stabilized → (3 ≤ n)%nat) ∧
  lastPageCount st = default 0 (last (omap currentPageCount (take n ticks))).
Proof.
  intros Hrun.
  apply pollPagination_invariant in Hrun as (Hb & Hn & Hs & Hhow & Hl); [|simpl; lia].
  rewrite Nat.sub_0_r in *. simpl in *.
  split; [done|]. split; [lia|]. split; [done|]. split; [|done].
  intros Hstable%Hhow. lia.
Qed.

Lemma pollPagination_reports_last_sample_witness :
  0 ≤ 3 ≤ 3 ∧
  (5 ≤ length (simulate [3; 5; 5; 5; 5; 6]%Z))%nat ∧
  (Stabilized = Stabilized ↔ 3 = 3) ∧
  (Stabilized = Stabilized → (3 ≤ 5)%nat) ∧
  5 = default 0 (last (omap currentPageCount (take 5 (simulate [3; 5; 5; 5; 5; 6])))).
Proof.
  apply (pollPagination_reports_last_sample (simulate [3; 5; 5; 5; 5; 6])
           Stabilized {| lastPageCount := 5; stableCount := 3 |} 5).
  vm_compute. reflexivity.
Defined.

(** The loop when the clock advances by at least a second per turn. *)
Lemma pollPagination_bounded (ticks : list Tick) :
  ∀ (st0 : PollState) (n0 : nat) (how : PollExit) (st : PollState) (n : nat),
    (∀ i t, ticks !! i = Some t → 1000 * Z.of_nat (n0 + i) ≤ elapsed t) →
    pollPagination ticks st0 n0 = (how, st, n) →
    (n ≤ Nat.max n0 121)%nat ∧
    ((121 < n0 + length ticks)%nat → ticks ≠ [] → how ≠ StillPolling).
Proof.
  induction ticks as [|t rest IH]; intros st0 n0 how st n Hclock.
  - simpl. destruct (stableCount st0 <? 3); simpl; intros [= <- <- <-];
      (split; [lia|done]).
  - simpl. destruct (stableCount st0 <? 3); simpl;
      [|intros [= <- <- <-]; split; [lia|done]].
    pose proof (Hclock 0%nat t eq_refl) as Ht. rewrite Nat.add_0_r in Ht.
    destruct (Z.gtb_spec (elapsed t) maxWaitTime) as [Hlate|Hintime].
    + intros [= <- <- <-]. split; [lia|done].
    + unfold maxWaitTime in Hintime.
      destruct (currentPageCount t) as [c|].
      * intros Hrun. apply IH in Hrun as [Hn Hhow].
        -- split; [lia|]. intros Hlen _. apply Hhow; [simpl in Hlen; lia|].
           intros ->. simpl in Hlen. lia.
        -- intros i t' Hi. specialize (Hclock (S i) t' Hi).
           by replace (S n0 + i)%nat with (n0 + S i)%nat by lia.
      * intros [= <- <- <-]. split; [lia|done].
Qed.

(** X22.  When each turn starts at least a second after the one before,
    as the delay of the loop makes it, the loop takes at most 121 samples,
    and with that many turns offered it is left: by stability, by the
    time-out or by an error, never still waiting. *)
Theorem pollPagination_terminates (ticks : list Tick)
    (how : PollExit) (st : PollState) (n : nat) :
  (∀ i t, ticks !! i = Some t → 1000 * Z.of_nat i ≤ elapsed t) →
  pollPagination ticks poll_start 0 = (how, st, n) →
  (n ≤ 121)%nat ∧ ((121 < length ticks)%nat → how ≠ StillPolling).
Proof.
  intros Hclock Hrun.
  apply pollPagination_bounded in Hrun as [Hn Hhow]; [|done].
  split; [lia|]. intros Hlen. apply Hhow; [simpl; lia|].
  intros ->. simpl in Hlen. lia.
Qed.

Lemma simulate_clock (counts : list Z) (i : nat) (t : Tick) :
  simulate counts !! i = Some t → 1000 * Z.of_nat i ≤ elapsed t.
Proof.
  unfold simulate. rewrite list_lookup_imap.
  destruct (counts !! i); simpl; [|done]. intros [= <-]. simpl. lia.
Qed.

Lemma pollPagination_terminates_witness :
  (121 ≤ 121)%nat ∧
  ((121 < length (simulate (Z.of_nat <$> seq 1 130)))%nat → TimedOut ≠ StillPolling).
Proof.
  apply (pollPagination_terminates (simulate (Z.of_nat <$> seq 1 130))
           TimedOut {| lastPageCount := 121; stableCount := 0 |} 121).
  - apply simulate_clock.
  - vm_compute. reflexivity.
Defined.

(** ** The run of the driver *)

Ltac prove_preparation :=
  unfold preparation; simpl;
  repeat (constructor; [first [left; by eexists | right; by eexists]|]);
  constructor.

Lemma convertHTMLToPDF_cases (w : World) (chromium : option Chromium) (s : Session)
    (inputFile outputFile : string) (customCSS : option string) :
  let run := convertHTMLToPDF w chromium s inputFile outputFile customCSS in
  let resolution := resolveChromium w (resolver_options w chromium) in
  (existsSync w inputFile = false ∧ run = exit_with [] 1) ∨
  (existsSync w inputFile = true ∧
   ((∃ e, result resolution = inl e ∧
          run = {| events := [EvResolveChromium (allowInstall_from_env w)];
                   ending := Rejected |}) ∨
    (∃ browserInfo, result resolution = inr browserInfo ∧
       ((status browserInfo = missing ∧
         run = exit_with [EvResolveChromium (allowInstall_from_env w)] 2) ∨
        (status browserInfo ≠ missing ∧
         prepared_run (world_after resolution) chromium s customCSS browserInfo run))))).
Proof.
  intros run resolution. subst run. unfold convertHTMLToPDF. fold resolution.
  destruct (existsSync w inputFile); [right|by left]. split; [done|]. simpl.
  destruct (result resolution) as [e|browserInfo]; [left; by eexists|right].
  exists browserInfo. split; [done|].
  assert (Hprepared :
    prepared_run (world_after resolution) chromium s customCSS browserInfo
      (match readFileSync s (path_resolve (world_after resolution) inputFile) with
       | None =>
           {| events := [EvResolveChromium (allowInstall_from_env w)] ++
                        [EvReadFile (path_resolve (world_after resolution) inputFile)];
              ending := Rejected |}
       | Some _ =>
           match
             match customCSS with
             | Some css =>
                 if negb (truthy customCSS)
                 then inr ([EvResolveChromium (allowInstall_from_env w)] ++
                           [EvReadFile (path_resolve (world_after resolution) inputFile)])
                 else if negb (existsSync (world_after resolution) css)
                      then inl (exit_with
                                  ([EvResolveChromium (allowInstall_from_env w)] ++
                                   [EvReadFile (path_resolve (world_after resolution) inputFile)])
                                  1)
                      else match readFileSync s css with
                           | None =>
                               inl {| events :=
                                        ([EvResolveChromium (allowInstall_from_env w)] ++
                                         [EvReadFile
                                            (path_resolve (world_after resolution) inputFile)])
                                        ++ [EvReadFile css];
                                      ending := Rejected |}
                           | Some _ =>
                               inr (([EvResolveChromium (allowInstall_from_env w)] ++
                                     [EvReadFile
                                        (path_resolve (world_after resolution) inputFile)])
                                    ++ [EvReadFile css])
                           end
             | None =>
                 inr ([EvResolveChromium (allowInstall_from_env w)] ++
                      [EvReadFile (path_resolve (world_after resolution) inputFile)])
             end
           with
           | inl run => run
           | inr evs =>
               match
                 match chromium with
                 | None => Some "Cannot read properties of undefined (reading 'launch')"%string
                 | Some _ => launch s
                 end
               with
               | Some errorMsg =>
                   exit_with ((evs ++ [EvLaunch (launch_path browserInfo)])
                              ++ [EvLaunchFailed (classifyLaunchError errorMsg)]) 1
               | None => guarded_conversion s (evs ++ [EvLaunch (launch_path browserInfo)])
               end
           end
       end)).
  { assert (Hlaunch : ∀ pre, preparation pre →
      prepared_run (world_after resolution) chromium s customCSS browserInfo
        (match
           match chromium with
           | None => Some "Cannot read properties of undefined (reading 'launch')"%string
           | Some _ => launch s
           end
         with
         | Some errorMsg =>
             exit_with ((pre ++ [EvLaunch (launch_path browserInfo)])
                        ++ [EvLaunchFailed (classifyLaunchError errorMsg)]) 1
         | None => guarded_conversion s (pre ++ [EvLaunch (launch_path browserInfo)])
         end)).
    { intros pre Hpre. exists pre. split; [done|].
      destruct chromium as [c|].
      - destruct (launch s) as [msg|] eqn:Hl.
        + right. right. left. by eexists.
        + right. right. right. done.
      - right. right. left. by eexists. }
    destruct (readFileSync s (path_resolve (world_after resolution) inputFile)).
    - destruct customCSS as [css|].
      + unfold truthy. destruct (String.eqb_spec css EmptyString) as [->|Hne]; cbn [negb].
        * apply Hlaunch. prove_preparation.
        * destruct (existsSync (world_after resolution) css) eqn:Hcss; cbn [negb].
          -- destruct (readFileSync s css).
             ++ apply Hlaunch. prove_preparation.
             ++ eexists. split; [|by left]. prove_preparation.
          -- eexists. split; [|right; left; split; [done|by exists css]].
             prove_preparation.
      + apply Hlaunch. prove_preparation.
    - eexists. split; [|by left]. prove_preparation. }
  destruct (status browserInfo) eqn:Hstatus; [right|right|right|left; done];
    (split; [done|exact Hprepared]).
Qed.

Lemma conversion_events (s : Session) : Forall conversion_event (fst (conversion s)).
Proof.
  unfold conversion, conversion_event. destruct (render s); simpl.
  - repeat constructor.
  - destruct (pollPagination (ticks s) poll_start 0) as [[how st] n].
    destruct how, (export s); simpl;
      repeat (constructor; [first [by left | right; left; by eexists | by right; right]|]);
      constructor.
Qed.

Lemma guarded_conversion_cases (s : Session) (pre : list Event) :
  (snd (conversion s) = BodyThrew ∧
   guarded_conversion s pre =
     exit_with (pre ++ fst (conversion s) ++ [EvConversionFailed]) 1) ∨
  (snd (conversion s) = BodyPolling ∧
   guarded_conversion s pre =
     {| events := pre ++ fst (conversion s); ending := Polling |}) ∨
  (snd (conversion s) = BodyDone ∧
   guarded_conversion s pre =
     {| events := pre ++ fst (conversion s) ++ [EvClose];
        ending := match close s with Some _ => Rejected | None => Fulfilled end |}).
Proof.
  unfold guarded_conversion. destruct (conversion s) as [evs how].
  destruct how; simpl; auto.
Qed.

Lemma preparation_no_close (pre : list Event) (e : Event) :
  preparation pre → e ∈ pre →
  (∃ allowed, e = EvResolveChromium allowed) ∨ (∃ p, e = EvReadFile p).
Proof. intros Hpre He. unfold preparation in Hpre. by eapply Forall_forall in Hpre. Qed.

Lemma conversion_done_exports (s : Session) :
  snd (conversion s) = BodyDone → EvExport ∈ fst (conversion s).
Proof.
  unfold conversion. destruct (render s); simpl; [done|].
  destruct (pollPagination (ticks s) poll_start 0) as [[how st] n].
  destruct how, (export s); simpl; try done;
    intros _; right; right; left.
Qed.

Lemma ending_of_conversion (w : World) (chromium : option Chromium) (s : Session)
    (inputFile outputFile : string) (customCSS : option string) :
  let run := convertHTMLToPDF w chromium s inputFile outputFile customCSS in
  match ending run with
  | Exited code =>
      (code = 1 ∨ code = 2) ∧ last (events run) = Some (EvExit code) ∧
      EvClose ∉ events run
  | Fulfilled =>
      last (events run) = Some EvClose ∧ EvExport ∈ events run ∧ close s = None
  | Rejected => EvClose ∈ events run → close s ≠ None
  | Polling => EvClose ∉ events run
  end.
Proof.
  intros run.
  assert (Hexit : ∀ evs code,
            (∀ e, e ∈ evs → e ≠ EvClose) → (code = 1 ∨ code = 2) →
            match ending (exit_with evs code) with
            | Exited c => (c = 1 ∨ c = 2) ∧ last (events (exit_with evs code)) = Some (EvExit c) ∧
                          EvClose ∉ events (exit_with evs code)
            | Fulfilled => last (events (exit_with evs code)) = Some EvClose ∧
                           EvExport ∈ events (exit_with evs code) ∧ close s = None
            | Rejected => EvClose ∈ events (exit_with evs code) → close s ≠ None
            | Polling => EvClose ∉ events (exit_with evs code)
            end).
  { intros evs code Hevs Hcode. simpl. split; [done|]. split; [apply last_snoc|].
    intros [Hin|Hin%list_elem_of_singleton]%elem_of_app; [by apply (Hevs _ Hin)|done]. }
  assert (Hpre : ∀ pre e, preparation pre → e ∈ pre → e ≠ EvClose).
  { intros pre e Hp He ->.
    destruct (preparation_no_close pre _ Hp He) as [[? ?]|[? ?]]; discriminate. }
  assert (Hconv : ∀ e, e ∈ fst (conversion s) → e ≠ EvClose).
  { intros e He ->. pose proof (conversion_events s) as Hall.
    eapply Forall_forall in Hall; [|exact He].
    destruct Hall as [?|[[? ?]|?]]; discriminate. }
  destruct (convertHTMLToPDF_cases w chromium s inputFile outputFile customCSS)
    as [[_ Hrun]|[_ [(e & _ & Hrun)|(info & _ & [[_ Hrun]|[_ (pre & Hp & Hrun)]])]]];
    fold run in Hrun.
  - rewrite Hrun. apply Hexit; [by intros ? ?%elem_of_nil|by left].
  - rewrite Hrun. simpl. intros Hin%list_elem_of_singleton. discriminate.
  - rewrite Hrun. apply Hexit; [|by right].
    intros ? ->%list_elem_of_singleton. discriminate.
  - destruct Hrun as [Hrun|[[Hrun _]|[[why Hrun]|(_ & _ & Hrun)]]]; rewrite Hrun.
    + simpl. intros Hin. by destruct (Hpre pre _ Hp Hin).
    + apply Hexit; [intros e He; by apply (Hpre pre)|by left].
    + apply Hexit; [|by left]. intros e He.
      apply elem_of_app in He as [He|He%list_elem_of_singleton]; [|by subst].
      apply elem_of_app in He as [He|He%list_elem_of_singleton]; [|by subst].
      by apply (Hpre pre).
    + assert (Hlaunched : ∀ e, e ∈ pre ++ [EvLaunch (launch_path info)] → e ≠ EvClose).
      { intros e [He|He%list_elem_of_singleton]%elem_of_app; [by apply (Hpre pre)|by subst]. }
      destruct (guarded_conversion_cases s (pre ++ [EvLaunch (launch_path info)]))
        as [[_ ->]|[[_ ->]|[Hdone ->]]].
      * apply Hexit; [|by left]. intros e He.
        apply elem_of_app in He as [He|He]; [by apply Hlaunched|].
        apply elem_of_app in He as [He|He%list_elem_of_singleton]; [by apply Hconv|by subst].
      * simpl. intros [He|He]%elem_of_app; [by apply (Hlaunched _ He)|by apply (Hconv _ He)].
      * simpl. destruct (close s) eqn:Hclose; [done|].
        split; [by rewrite !app_assoc, last_snoc|]. split; [|done].
        apply elem_of_app. right. apply elem_of_app. left.
        by apply conversion_done_exports.
Qed.

(** X23.  A run of [convertHTMLToPDF] that ends the process does so with
    code 1 or 2, by its last event, and has not closed the browser; a run
    that is fulfilled has exported the document and closed the browser as
    its last event; the browser is never closed while the loop still
    waits. *)
Theorem convertHTMLToPDF_endings (w : World) (chromium : option Chromium) (s : Session)
    (inputFile outputFile : string) (customCSS : option string) :
  let run := convertHTMLToPDF w chromium s inputFile outputFile customCSS in
  match ending run with
  | Exited code =>
      (code = 1 ∨ code = 2) ∧ last (events run) = Some (EvExit code) ∧
      EvClose ∉ events run
  | Fulfilled =>
      last (events run) = Some EvClose ∧ EvExport ∈ events run ∧ close s = None
  | Rejected => EvClose ∈ events run → close s ≠ None
  | Polling => EvClose ∉ events run
  end.
Proof. apply ending_of_conversion. Qed.

Lemma launch_path_meaning (w : World) (options : Options) (info : Resolution) :
  result (resolveChromium w options) = inr info → status info ≠ missing →
  (∀ p, launch_path info = Some p →
        status info = fallback ∧ executablePath info = p ∧ accessSync_X_OK w p = true) ∧
  (launch_path info = None → status info = ok ∨ status info = installed).
Proof.
  intros Hres Hstatus.
  pose proof (resolution_holds_of_result w options info Hres) as Hholds.
  unfold resolution_holds in Hholds. unfold launch_path.
  destruct (status info); try done.
  - destruct Hholds as (_ & _ & -> & _). simpl. split; [done|auto].
  - destruct Hholds as (Hx & _ & -> & _). simpl.
    pose proof (existsSync_nonempty w _ (accessSync_existsSync w _ Hx)) as Hne.
    unfold truthy. destruct (String.eqb_spec (executablePath info) EmptyString); [done|].
    simpl. split; [|done]. by intros p [= <-].
  - destruct Hholds as (_ & _ & _ & -> & _). simpl. split; [done|auto].
Qed.

(** X24.  When the browser is launched, the resolver had returned a
    browser; an explicit executable is handed to the launch exactly when
    the resolution is a fallback, and it is then the path of the
    resolution, which passed the executable check. *)
Theorem launch_uses_resolved_browser (w : World) (chromium : option Chromium)
    (s : Session) (inputFile outputFile : string) (customCSS : option string)
    (launchPath : option string) :
  EvLaunch launchPath ∈
    events (convertHTMLToPDF w chromium s inputFile outputFile customCSS) →
  ∃ browserInfo,
    result (resolveChromium w (resolver_options w chromium)) = inr browserInfo ∧
    status browserInfo ≠ missing ∧
    launchPath = launch_path browserInfo ∧
    (∀ p, launchPath = Some p →
          status browserInfo = fallback ∧ executablePath browserInfo = p ∧
          accessSync_X_OK w p = true) ∧
    (launchPath = None → status browserInfo = ok ∨ status browserInfo = installed).
Proof.
  intros Hin.
  assert (Hpre : ∀ pre, preparation pre → EvLaunch launchPath ∉ pre).
  { intros pre Hp He.
    destruct (preparation_no_close pre _ Hp He) as [[? ?]|[? ?]]; discriminate. }
  assert (Hconv : EvLaunch launchPath ∉ fst (conversion s)).
  { intros He. pose proof (conversion_events s) as Hall.
    eapply Forall_forall in Hall; [|exact He].
    destruct Hall as [?|[[? ?]|?]]; discriminate. }
  destruct (convertHTMLToPDF_cases w chromium s inputFile outputFile customCSS)
    as [[_ Hrun]|[_ [(e & _ & Hrun)|(info & Hres & [[_ Hrun]|[Hstatus (pre & Hp & Hrun)]])]]];
    simpl in Hrun.
  - rewrite Hrun in Hin. simpl in Hin. apply list_elem_of_singleton in Hin. discriminate.
  - rewrite Hrun in Hin. simpl in Hin. apply list_elem_of_singleton in Hin. discriminate.
  - rewrite Hrun in Hin. simpl in Hin. apply list_elem_of_In in Hin. simpl in Hin.
    destruct Hin as [?|[?|[]]]; discriminate.
  - assert (Hlaunched : ∀ e, e ∈ pre ++ [EvLaunch (launch_path info)] →
                             e = EvLaunch launchPath → launchPath = launch_path info).
    { intros e [He|He%list_elem_of_singleton]%elem_of_app ->;
        [by destruct (Hpre pre Hp)|by injection He]. }
    assert (Hgoal : launchPath = launch_path info).
    { destruct Hrun as [Hrun|[[Hrun _]|[[why Hrun]|(_ & _ & Hrun)]]];
        rewrite Hrun in Hin.
      - by destruct (Hpre pre Hp).
      - unfold exit_with in Hin. simpl in Hin.
        apply elem_of_app in Hin as [Hin|Hin%list_elem_of_singleton];
          [by destruct (Hpre pre Hp)|discriminate].
      - unfold exit_with in Hin. simpl in Hin.
        apply elem_of_app in Hin as [Hin|Hin%list_elem_of_singleton]; [|discriminate].
        apply elem_of_app in Hin as [Hin|Hin%list_elem_of_singleton]; [|discriminate].
        by apply (Hlaunched _ Hin).
      - assert (Hbody : ∀ tail : list Event,
                  EvLaunch launchPath ∉ tail →
                  EvLaunch launchPath ∈
                    (pre ++ [EvLaunch (launch_path info)]) ++ fst (conversion s) ++ tail →
                  launchPath = launch_path info).
        { intros tail Htail [He|He]%elem_of_app; [by apply (Hlaunched _ He)|].
          apply elem_of_app in He as [He|He]; [by destruct Hconv|by destruct Htail]. }
        destruct (guarded_conversion_cases s (pre ++ [EvLaunch (launch_path info)]))
          as [[_ Heq]|[[_ Heq]|[_ Heq]]]; rewrite Heq in Hin;
          unfold exit_with in Hin; simpl in Hin.
        + apply elem_of_app in Hin as [Hin|Hin%list_elem_of_singleton]; [|discriminate].
          apply (Hbody [EvConversionFailed]); [|done].
          intros He%list_elem_of_singleton. discriminate.
        + apply (Hbody []); [apply not_elem_of_nil|]. by rewrite app_nil_r.
        + apply (Hbody [EvClose]); [|done].
          intros He%list_elem_of_singleton. discriminate. }
    exists info. split; [done|]. split; [done|]. split; [done|].
    rewrite Hgoal. by apply (launch_path_meaning w (resolver_options w chromium)).
Qed.

Lemma launch_uses_resolved_browser_witness :
  ∃ browserInfo,
    result (resolveChromium Scenario.stale_cache
              (resolver_options Scenario.stale_cache
                 (Scenario.playwright_at "chromium-1150"))) = inr browserInfo ∧
    status browserInfo ≠ missing ∧
    Some (Scenario.chrome_of "chromium-1148") = launch_path browserInfo ∧
    (∀ p, Some (Scenario.chrome_of "chromium-1148") = Some p →
          status browserInfo = fallback ∧ executablePath browserInfo = p ∧
          accessSync_X_OK Scenario.stale_cache p = true) ∧
    (Some (Scenario.chrome_of "chromium-1148") = None →
     status browserInfo = ok ∨ status browserInfo = installed).
Proof.
  apply (launch_uses_resolved_browser Scenario.stale_cache
           (Scenario.playwright_at "chromium-1150")
           (Scenario.smooth [3; 5; 5; 5; 5]) "/work/report.html" "/work/report.pdf" None).
  apply list_elem_of_In. vm_compute. right. right. left. reflexivity.
Defined.

(** X25.  A style sheet that is named but does not exist ends the run with
    code 1 once the input was read: the browser is not launched. *)
Theorem missing_css_exits_before_launch (w : World) (chromium : option Chromium)
    (s : Session) (inputFile outputFile css html : string) (browserInfo : Resolution) :
  existsSync w inputFile = true →
  result (resolveChromium w (resolver_options w chromium)) = inr browserInfo →
  status browserInfo ≠ missing →
  let w' := world_after (resolveChromium w (resolver_options w chromium)) in
  readFileSync s (path_resolve w' inputFile) = Some html →
  css ≠ EmptyString → existsSync w' css = false →
  convertHTMLToPDF w chromium s inputFile outputFile (Some css) =
    exit_with [EvResolveChromium (allowInstall_from_env w);
               EvReadFile (path_resolve w' inputFile)] 1.
Proof.
  intros Hinput Hres Hstatus w' Hread Hcss Hmissing. subst w'.
  unfold convertHTMLToPDF. rewrite Hinput. cbn [negb].
  rewrite Hres. cbv zeta. rewrite Hread, Hmissing.
  unfold truthy. destruct (String.eqb_spec css EmptyString); [done|]. cbn [negb].
  by destruct (status browserInfo).
Qed.

Lemma missing_css_exits_before_launch_witness :
  convertHTMLToPDF Scenario.fresh_cache (Scenario.playwright_at "chromium-1150")
    (Scenario.smooth [3; 5; 5; 5; 5]) "/work/report.html" "/work/report.pdf"
    (Some "/work/absent.css"%string) =
    exit_with [EvResolveChromium (allowInstall_from_env Scenario.fresh_cache);
               EvReadFile
                 (path_resolve
                    (world_after
                       (resolveChromium Scenario.fresh_cache
                          (resolver_options Scenario.fresh_cache
                             (Scenario.playwright_at "chromium-1150"))))
                    "/work/report.html")] 1.
Proof.
  apply (missing_css_exits_before_launch Scenario.fresh_cache
           (Scenario.playwright_at "chromium-1150") (Scenario.smooth [3; 5; 5; 5; 5])
           "/work/report.html" "/work/report.pdf" "/work/absent.css" "<html></html>"
           {| status := ok;
              executablePath := Scenario.chrome_of "chromium-1150";
              resolved_revision := Some 1150;
              expectedRevision := Some 1150;
              isFallback := false;
              resolved_source := "default" |}).
  - vm_compute. reflexivity.
  - vm_compute. reflexivity.
  - discriminate.
  - reflexivity.
  - discriminate.
  - vm_compute. reflexivity.
Defined.

(** X26.  The time-out of the polling loop is not an error: the run goes
    on with the page count reached, exports the document, closes the
    browser and is fulfilled. *)
Theorem pagination_timeout_is_not_fatal (w : World) (c : Chromium) (s : Session)
    (inputFile outputFile html : string) (browserInfo : Resolution)
    (st : PollState) (n : nat) :
  existsSync w inputFile = true →
  result (resolveChromium w (resolver_options w (Some c))) = inr browserInfo →
  status browserInfo ≠ missing →
  let w' := world_after (resolveChromium w (resolver_options w (Some c))) in
  readFileSync s (path_resolve w' inputFile) = Some html →
  launch s = None → render s = None →
  pollPagination (ticks s) poll_start 0 = (TimedOut, st, n) →
  export s = None → close s = None →
  convertHTMLToPDF w (Some c) s inputFile outputFile None =
    {| events := [EvResolveChromium (allowInstall_from_env w);
                  EvReadFile (path_resolve w' inputFile);
                  EvLaunch (launch_path browserInfo);
                  EvRender; EvPoll n; EvExport; EvClose];
       ending := Fulfilled |}.
Proof.
  intros Hinput Hres Hstatus w' Hread Hlaunch Hrender Hpoll Hexport Hclose. subst w'.
  unfold convertHTMLToPDF. rewrite Hinput. cbn [negb].
  rewrite Hres. cbv zeta. rewrite Hread, Hlaunch.
  unfold guarded_conversion, conversion. rewrite Hrender, Hpoll, Hexport, Hclose.
  fold (launch_path browserInfo).
  by destruct (status browserInfo).
Qed.

Lemma pagination_timeout_is_not_fatal_witness :
  convertHTMLToPDF Scenario.fresh_cache
    (Some {| chromium_executablePath := Some (Scenario.chrome_of "chromium-1150") |})
    {| readFileSync := fun _ => Some "<html></html>"%string;
       launch := None; render := None;
       ticks := [ {| elapsed := 0; currentPageCount := Some 7 |};
                  {| elapsed := 120500; currentPageCount := Some 9 |} ];
       export := None; close := None |}
    "/work/report.html" "/work/report.pdf" None =
    {| events := [EvResolveChromium (allowInstall_from_env Scenario.fresh_cache);
                  EvReadFile
                    (path_resolve
                       (world_after
                          (resolveChromium Scenario.fresh_cache
                             (resolver_options Scenario.fresh_cache
                                (Some {| chromium_executablePath :=
                                           Some (Scenario.chrome_of "chromium-1150") |}))))
                       "/work/report.html");
                  EvLaunch (launch_path
                              {| status := ok;
                                 executablePath := Scenario.chrome_of "chromium-1150";
                                 resolved_revision := Some 1150;
                                 expectedRevision := Some 1150;
                                 isFallback := false;
                                 resolved_source := "default" |});
                  EvRender; EvPoll 1; EvExport; EvClose];
       ending := Fulfilled |}.
Proof.
  apply (pagination_timeout_is_not_fatal Scenario.fresh_cache _ _
           "/work/report.html" "/work/report.pdf" "<html></html>" _
           {| lastPageCount := 7; stableCount := 0 |} 1).
  - vm_compute. reflexivity.
  - vm_compute. reflexivity.
  - discriminate.
  - reflexivity.
  - reflexivity.
  - reflexivity.
  - vm_compute. reflexivity.
  - reflexivity.
  - reflexivity.
Defined.

(** ** The entry point and its arguments *)



Lemma scan_options_well_formed (opts : list CliOption) :
  Forall well_formed_option opts →
  ∀ outputFile customCSS,
    scan_options (flat_map render_option opts) outputFile customCSS =
      (last_output outputFile opts, last_style customCSS opts).
Proof.
  induction 1 as [|o opts Ho _ IH]; intros outputFile customCSS; [done|].
  destruct o as [[] value|value|arg]; simpl; try apply IH.
  unfold well_formed_option, is_flag in Ho.
  apply orb_false_iff in Ho as [Ho ->]. rewrite Ho. apply IH.
Qed.

(** X28.  For a command line made of the input file followed by options
    with their values and other arguments that are not flags, [parseArgs]
    returns the input file, the value of the last [--output] or [-o] (the
    path derived from the input when there is none or it is empty) and the
    value of the last [--css]; a value is taken as it stands even when it
    looks like a flag, and the other arguments are ignored. *)
Theorem parseArgs_last_option_wins (w : World) (path_parse : string → ParsedPath)
    (inputFile : string) (opts : list CliOption) :
  inputFile ≠ "--help"%string → inputFile ≠ "-h"%string →
  Forall well_formed_option opts →
  parseArgs w path_parse (inputFile :: flat_map render_option opts) =
    Some {| arg_inputFile := inputFile;
            arg_outputFile :=
              match last_output None opts with
              | Some out => if String.eqb out EmptyString
                            then default_output w path_parse inputFile else out
              | None => default_output w path_parse inputFile
              end;
            arg_customCSS := last_style None opts |}.
Proof.
  intros Hhelp Hh Hopts. unfold parseArgs.
  destruct (String.eqb_spec inputFile "--help"); [done|].
  destruct (String.eqb_spec inputFile "-h"); [done|]. simpl.
  rewrite scan_options_well_formed by done.
  unfold truthy at 1, default_output.
  destruct (last_output None opts) as [out|]; [|done].
  by destruct (String.eqb out EmptyString).
Qed.

Lemma parseArgs_last_option_wins_witness :
  parseArgs Scenario.fresh_cache (fun _ => {| dir := "/work"; name := "report" |})
    ("/work/report.html" :: flat_map render_option
       [OutputTo true "a.pdf"; Positional "--verbose"; StyleWith "--output";
        OutputTo false "b.pdf"])%string =
    Some {| arg_inputFile := "/work/report.html";
            arg_outputFile := "b.pdf";
            arg_customCSS := Some "--output"%string |}.
Proof.
  apply (parseArgs_last_option_wins Scenario.fresh_cache
           (fun _ => {| dir := "/work"; name := "report" |}) "/work/report.html"
           [OutputTo true "a.pdf"; Positional "--verbose"; StyleWith "--output";
            OutputTo false "b.pdf"]%string).
  - discriminate.
  - discriminate.
  - repeat constructor.
Defined.

(** X29.  An output flag that ends the command line has no value: it
    discards an output path given before it, and the path derived from the
    input file is used. *)
Theorem parseArgs_dangling_output_flag (w : World) (path_parse : string → ParsedPath)
    (inputFile flag : string) (opts : list CliOption) :
  inputFile ≠ "--help"%string → inputFile ≠ "-h"%string →
  Forall well_formed_option opts →
  flag = "--output"%string ∨ flag = "-o"%string →
  parseArgs w path_parse (inputFile :: flat_map render_option opts ++ [flag]) =
    Some {| arg_inputFile := inputFile;
            arg_outputFile := default_output w path_parse inputFile;
            arg_customCSS := last_style None opts |}.
Proof.
  intros Hhelp Hh Hopts Hflag. unfold parseArgs.
  destruct (String.eqb_spec inputFile "--help"); [done|].
  destruct (String.eqb_spec inputFile "-h"); [done|]. simpl.
  assert (Hscan : ∀ outputFile customCSS,
            scan_options (flat_map render_option opts ++ [flag]) outputFile customCSS =
              (None, last_style customCSS opts)).
  { induction Hopts as [|o opts Ho _ IH]; intros outputFile customCSS.
    - simpl. by destruct Hflag as [-> | ->].
    - destruct o as [[] value|value|arg]; simpl; try apply IH.
      unfold well_formed_option, is_flag in Ho.
      apply orb_false_iff in Ho as [Ho ->]. rewrite Ho. apply IH. }
  by rewrite Hscan.
Qed.

Lemma parseArgs_dangling_output_flag_witness :
  parseArgs Scenario.fresh_cache (fun _ => {| dir := ""; name := "report" |})
    ("report.html" :: flat_map render_option [OutputTo true "a.pdf"] ++ ["-o"])%string =
    Some {| arg_inputFile := "report.html";
            arg_outputFile :=
              default_output Scenario.fresh_cache
                (fun _ => {| dir := ""; name := "report" |}) "report.html";
            arg_customCSS := None |}.
Proof.
  apply (parseArgs_dangling_output_flag Scenario.fresh_cache
           (fun _ => {| dir := ""; name := "report" |}) "report.html" "-o"
           [OutputTo true "a.pdf"]%string).
  - discriminate.
  - discriminate.
  - repeat constructor.
  - by right.
Defined.

(** ** [formatSize] *)

Lemma toFixed1_tenths_nearest (bytes divisor : Z) :
  0 < divisor → 0 ≤ bytes →
  0 ≤ toFixed1_tenths bytes divisor ∧
  2 * Z.abs (10 * bytes - toFixed1_tenths bytes divisor * divisor) ≤ divisor.
Proof.
  intros Hd Hb. unfold toFixed1_tenths.
  pose proof (Z.div_mod (20 * bytes + divisor) (2 * divisor)) as Hdm.
  pose proof (Z.mod_pos_bound (20 * bytes + divisor) (2 * divisor)) as Hmod.
  split; [apply Z.div_pos; lia|]. lia.
Qed.

Lemma formatSize_parts_cases (bytes : Z) :
  formatSize_parts bytes =
    if 1024 <=? bytes then
      if 1048576 <=? bytes then
        if 1073741824 <=? bytes then (toFixed1_tenths bytes 1073741824, "GB"%string)
        else (toFixed1_tenths bytes 1048576, "MB"%string)
      else (toFixed1_tenths bytes 1024, "KB"%string)
    else (toFixed1_tenths bytes 1, "B"%string).
Proof.
  unfold formatSize_parts, scale_size.
  change (1024 * (1024 * (1024 * 1))) with 1073741824.
  change (1024 * (1024 * 1)) with 1048576.
  change (1024 * 1) with 1024.
  destruct (1024 <=? bytes); [|done].
  destruct (1048576 <=? bytes); [|done].
  by destruct (1073741824 <=? bytes).
Qed.

(** X30.  For a size that is not negative, [formatSize] uses the first
    unit in which the number falls below 1024 (GB from 1024^3 on), and
    shows the tenths nearest to the size in that unit; below 1024^4 the
    number shown is at most 1024.0. *)
Theorem formatSize_unit_and_rounding (bytes : Z) :
  0 ≤ bytes →
  ∃ k : nat,
    (k ≤ 3)%nat ∧
    units !! k = Some (snd (formatSize_parts bytes)) ∧
    ((0 < k)%nat → 1024 ^ Z.of_nat k ≤ bytes) ∧
    ((k < 3)%nat → bytes < 1024 ^ Z.of_nat (S k)) ∧
    0 ≤ fst (formatSize_parts bytes) ∧
    2 * Z.abs (10 * bytes - fst (formatSize_parts bytes) * 1024 ^ Z.of_nat k)
      ≤ 1024 ^ Z.of_nat k ∧
    (bytes < 1024 ^ 4 → fst (formatSize_parts bytes) ≤ 10240).
Proof.
  intros Hb. rewrite formatSize_parts_cases.
  destruct (Z.leb_spec 1024 bytes) as [H1|H1]; simpl.
  - destruct (Z.leb_spec 1048576 bytes) as [H2|H2]; simpl.
    + destruct (Z.leb_spec 1073741824 bytes) as [H3|H3]; simpl.
      * exists 3%nat.
        destruct (toFixed1_tenths_nearest bytes 1073741824) as [Hn Hr]; [lia|lia|].
        change (1024 ^ Z.of_nat 3) with 1073741824.
        repeat split; try done; try lia.
      * exists 2%nat.
        destruct (toFixed1_tenths_nearest bytes 1048576) as [Hn Hr]; [lia|lia|].
        change (1024 ^ Z.of_nat 2) with 1048576.
        change (1024 ^ Z.of_nat 3) with 1073741824.
        repeat split; try done; try lia.
    + exists 1%nat.
      destruct (toFixed1_tenths_nearest bytes 1024) as [Hn Hr]; [lia|lia|].
      change (1024 ^ Z.of_nat 1) with 1024.
      change (1024 ^ Z.of_nat 2) with 1048576.
      repeat split; try done; try lia.
  - exists 0%nat.
    destruct (toFixed1_tenths_nearest bytes 1) as [Hn Hr]; [lia|lia|].
    change (1024 ^ Z.of_nat 0) with 1.
    change (1024 ^ Z.of_nat 1) with 1024.
    repeat split; try done; try lia.
Qed.

Lemma formatSize_unit_and_rounding_witness :
  ∃ k : nat,
    (k ≤ 3)%nat ∧
    units !! k = Some (snd (formatSize_parts 1048575)) ∧
    ((0 < k)%nat → 1024 ^ Z.of_nat k ≤ 1048575) ∧
    ((k < 3)%nat → 1048575 < 1024 ^ Z.of_nat (S k)) ∧
    0 ≤ fst (formatSize_parts 1048575) ∧
    2 * Z.abs (10 * 1048575 - fst (formatSize_parts 1048575) * 1024 ^ Z.of_nat k)
      ≤ 1024 ^ Z.of_nat k ∧
    (1048575 < 1024 ^ 4 → fst (formatSize_parts 1048575) ≤ 10240).
Proof. apply (formatSize_unit_and_rounding 1048575). lia. Defined.

Example formatSize_examples :
  formatSize 0 = "0.0 B"%string ∧
  formatSize 1536 = "1.5 KB"%string ∧
  formatSize 1048575 = "1024.0 KB"%string ∧
  formatSize 5368709120 = "5.0 GB"%string.
Proof. repeat split. Qed.
